(** * dc_chunker: chunking helpers for Data Cube queries

    A shallow embedding of [dc_chunker.py] and the properties of its
    partitioning and recombination functions.

    Numbers.  Latitudes, longitudes and chunk areas are Python floats; they
    are modelled by the rationals [Q], i.e. by exact arithmetic (rounding is
    left aside), compared with [==].  Python integers are [Z].

    Errors.  A Python call either returns a value or raises; a raising call
    is a value [inl e] of [result], a returning one is [inr v]. *)

From Stdlib Require Import QArith Qround Qabs Lqa.
From stdpp Require Import base list sorting gmap strings.

Local Open Scope Z_scope.

(** ** Exceptions and the error monad *)

Inductive exn : Set :=
  | AssertionError
  | IndexError
  | ZeroDivisionError
  | ValueError
  | AttributeError.

Definition result (A : Type) : Type := exn + A.

Definition raise {A} (e : exn) : result A := inl e.
Definition ret {A} (a : A) : result A := inr a.

Definition bind {A B} (m : result A) (k : A → result B) : result B :=
  match m with
  | inl e => inl e
  | inr a => k a
  end.

Notation "'let*' x ':=' m 'in' k" := (bind m (fun x => k))
  (at level 10, x name, m at level 100, k at level 200).

(** ** Python built-ins used by the module *)

(** Truth value of an optional tuple: [None] and the empty tuple are false. *)
Definition truthy {A} (o : option (list A)) : bool :=
  match o with
  | Some (_ :: _) => true
  | _ => false
  end.

(** [t[i]] for a non-negative literal index [i]. *)
Definition getitem {A} (t : list A) (i : nat) : result A :=
  match t !! i with
  | Some a => ret a
  | None => raise IndexError
  end.

(** [a / b] on numbers: true division, raising on a zero divisor. *)
Definition truediv (a b : Q) : result Q :=
  if Qeq_bool b 0 then raise ZeroDivisionError else ret (a / b)%Q.

(** [range(n)]: empty when [n <= 0]. *)
Definition range (n : Z) : list Z := seqZ 0 n.

(** [range(start, stop, step)], with CPython's length computation. *)
Definition range3 (start stop step : Z) : result (list Z) :=
  if step =? 0 then raise ValueError
  else if 0 <? step then
    ret ((fun k => start + k * step) <$> seqZ 0 ((stop - start + step - 1) `div` step))
  else
    ret ((fun k => start + k * step) <$> seqZ 0 ((start - stop - step - 1) `div` (- step))).

(** Normalisation of one bound of a slice over a sequence of length [len]:
    negative bounds count from the end, and the result is clamped to
    [0..len]. *)
Definition slice_bound (len i : Z) : Z :=
  let j := if i <? 0 then i + len else i in
  Z.max 0 (Z.min len j).

(** [l[a:b]] *)
Definition slice {A} (l : list A) (a b : Z) : list A :=
  let len := Z.of_nat (length l) in
  let lo := slice_bound len a in
  let hi := slice_bound len b in
  take (Z.to_nat (hi - lo)) (drop (Z.to_nat lo) l).

(** ** GeographicChunker *)

(** A chunk descriptor is the dict [{'longitude': ..., 'latitude': ...}]. *)
Record ChunkDescriptor : Type := mkChunk {
  longitude : list Q;
  latitude : Q * Q
}.

Definition create_geographic_chunks
    (longitude latitude : option (list Q)) (geographic_chunk_size : Q)
    : result (list ChunkDescriptor) :=
  if negb (truthy latitude && truthy longitude) then raise AssertionError
  else
    let latitude := default [] latitude in
    let longitude := default [] longitude in
    let* lat1 := getitem latitude 1 in
    let* lat0 := getitem latitude 0 in
    let* lon1 := getitem longitude 1 in
    let* lon0 := getitem longitude 0 in
    let square_area := ((lat1 - lat0) * (lon1 - lon0))%Q in
    let* ratio := truediv square_area geographic_chunk_size in
    let geographic_chunks := Qceiling ratio in
    let* latitude_chunk_size := truediv (lat1 - lat0) (inject_Z geographic_chunks) in
    let latitude_ranges :=
      (fun chunk_number =>
         ((lat0 + latitude_chunk_size * inject_Z chunk_number)%Q,
          (lat0 + latitude_chunk_size * inject_Z (chunk_number + 1))%Q))
      <$> range geographic_chunks in
    let longitude_ranges := (fun _ => longitude) <$> latitude_ranges in
    ret ((fun pair => mkChunk pair.1 pair.2) <$> zip longitude_ranges latitude_ranges).

(** ** TemporalChunker *)

(** A naive [datetime]: its seven calendar fields. *)
Record datetime : Set := mkDatetime {
  year : Z;
  month : Z;
  day : Z;
  hour : Z;
  minute : Z;
  second : Z;
  microsecond : Z
}.

Definition dt_fields (d : datetime) : list Z :=
  [year d; month d; day d; hour d; minute d; second d; microsecond d].

(** Datetimes compare field by field, most significant first. *)
Fixpoint lex_compare (a b : list Z) : comparison :=
  match a, b with
  | [], [] => Eq
  | [], _ :: _ => Lt
  | _ :: _, [] => Gt
  | x :: a', y :: b' =>
      match x ?= y with
      | Eq => lex_compare a' b'
      | c => c
      end
  end.

(** [a < b] on datetimes. *)
Definition dt_lt (a b : datetime) : bool :=
  match lex_compare (dt_fields a) (dt_fields b) with
  | Lt => true
  | _ => false
  end.

(** The order a sort by [<] establishes between neighbours: [not (b < a)]. *)
Definition dt_le (a b : datetime) : Prop := dt_lt b a = false.

Global Instance dt_le_dec : RelDecision dt_le.
Proof. intros a b. unfold dt_le. apply _. Defined.

Global Instance Qle_dec : RelDecision Qle.
Proof.
  intros a b. destruct (Qle_bool a b) eqn:E.
  - left. by apply Qle_bool_iff.
  - right. intros H. apply Qle_bool_iff in H. congruence.
Defined.

(** [sorted(l, reverse=flag)].  The built-in is a stable merge sort by [<];
    with [reverse=True] CPython reverses the list, sorts it and reverses the
    outcome. *)
Definition sorted {A} (R : relation A) `{!RelDecision R}
    (l : list A) (reverse_ : bool) : list A :=
  if reverse_ then reverse (merge_sort R (reverse l)) else merge_sort R l.

Definition _chunk_iterable {A} (_iterable : list A) (chunk_size : Z)
    : result (list (list A)) :=
  let* indices := range3 0 (Z.of_nat (length _iterable)) chunk_size in
  ret ((fun index => slice _iterable index (index + chunk_size)) <$> indices).

(** [time_chunk_size] is an integer or [None]. *)
Definition create_time_chunks (datetime_list : list datetime) (_reversed : bool)
    (time_chunk_size : option Z) : result (list (list datetime)) :=
  let datetimes_sorted := sorted dt_le datetime_list _reversed in
  match time_chunk_size with
  | None => ret [datetimes_sorted]
  | Some chunk_size => _chunk_iterable datetimes_sorted chunk_size
  end.

(** *** Grouping by calendar field *)

(** [itertools.groupby] scans its input once and starts a new group at
    every change of the key.  [group_runs key l] is that scan: the adjacent
    runs of [l], each with its key. *)
Fixpoint group_runs {A} (key : A → Z) (l : list A) : list (Z * list A) :=
  match l with
  | [] => []
  | x :: l' =>
      match group_runs key l' with
      | (k, g) :: rest =>
          if key x =? k then (k, x :: g) :: rest
          else (key x, [x]) :: (k, g) :: rest
      | [] => [(key x, [x])]
      end
  end.

(** The group object that [groupby] hands out for one run.  It is a lazy
    iterator over the shared scan, not a list: the model records which run
    it was created for ([grouper_id], the position of the run in the scan,
    and [grouper_run], the elements of that run) and says nothing about what
    it still yields once the scan has moved on. *)
Record grouper (A : Type) : Type := Grouper {
  grouper_id : nat;
  grouper_run : list A
}.
Arguments Grouper {A} _ _.
Arguments grouper_id {A} _.
Arguments grouper_run {A} _.

(** The pairs [(key, group)] produced by iterating [groupby(l, key)]. *)
Definition groupby {A} (l : list A) (key : A → Z) : list (Z * grouper A) :=
  imap (fun i kg => (kg.1, Grouper i kg.2)) (group_runs key l).

(** [dict(pairs)]: pairs are inserted in order, a later pair replacing an
    earlier one with the same key. *)
Definition dict {V} (pairs : list (Z * V)) : gmap Z V :=
  foldl (fun d kv => <[kv.1 := kv.2]> d) ∅ pairs.

Definition group_datetimes_by_year (datetime_list : list datetime)
    : gmap Z (grouper datetime) :=
  dict (groupby datetime_list year).

Definition default_months : list Z := [1; 2; 3; 4; 5; 6; 7; 8; 9; 10; 11; 12].

Definition group_datetimes_by_month (datetime_list : list datetime)
    (months : list Z) : gmap Z (grouper datetime) :=
  let month_filtered := filter (fun x => month x ∈ months) datetime_list in
  dict (groupby datetime_list month).

(** ** SlidingWindowGenerator *)

(** [_generate_baseline] returns either its argument itself or a list
    holding one list of windows. *)
Inductive baseline (A : Type) : Type :=
  | Unchanged (_iterable : list A)
  | Windows (nested : list (list (list A))).
Arguments Unchanged {A} _.
Arguments Windows {A} _.

Definition _generate_baseline {A} (_iterable : list A) (window_length : Z)
    : baseline A :=
  if Z.of_nat (length _iterable) <=? window_length then Unchanged _iterable
  else
    let num_windows := Z.of_nat (length _iterable) - window_length - 1 in
    Windows
      [ (fun window => slice _iterable window (window + window_length))
          <$> range num_windows ].

(** ** ChunkCombiner *)

(** What the module passes to [reindex] for one axis: a list of labels, or
    a tuple of such objects.  Latitude and longitude labels are numbers;
    time labels are [datetime64] values, modelled by their integer tick
    count. *)
#[warnings="-register-all"]
Inductive indexer : Type :=
  | Labels (xs : list Q)
  | TimeLabels (ts : list Z)
  | Tuple (items : list indexer).

(** The operations of the array library that the combiner relies on; the
    gridded dataset itself is opaque.  [ds_time] is [None] when the dataset
    has no ['time'] entry. *)
Class XArray (Dataset : Type) : Type := {
  ds_latitude : Dataset → list Q;
  ds_longitude : Dataset → list Q;
  ds_time : Dataset → option (list Z);
  combine_first : Dataset → Dataset → Dataset;
  reindex : Dataset → gmap string indexer → result Dataset
}.

Section combiner.
Context {Dataset : Type} `{!XArray Dataset}.

(** The loop of [combine_geographic_chunks]: the first chunk seeds the
    accumulator, the others are merged into it from the right. *)
Definition combine_loop (chunks : list Dataset) : option Dataset :=
  foldl (fun combined_chunks chunk =>
           match combined_chunks with
           | None => Some chunk
           | Some c => Some (combine_first c chunk)
           end) None chunks.

(** The [indices] dict built after the loop.  The entry for ['time'] is
    written with a trailing comma in the source, which makes it a tuple of
    one element. *)
Definition build_indices (combined_chunks : Dataset) : gmap string indexer :=
  let indices : gmap string indexer :=
    <["longitude" := Labels (sorted Qle (ds_longitude combined_chunks) false)]>
      ({["latitude" := Labels (sorted Qle (ds_latitude combined_chunks) true)]}) in
  match ds_time combined_chunks with
  | Some values => <["time" := Tuple [TimeLabels (sorted Z.le values false)]]> indices
  | None => indices
  end.

Definition combine_geographic_chunks (chunks : list Dataset) : result Dataset :=
  match combine_loop chunks with
  | None => raise AttributeError
  | Some combined_chunks => reindex combined_chunks (build_indices combined_chunks)
  end.
End combiner.

(** ** Vocabulary of the properties *)

(** The lower end of latitude band [i] for band width [w]. *)
Definition band_edge (lat0 w : Q) (i : Z) : Q := (lat0 + w * inject_Z i)%Q.

Definition band (lat0 w : Q) (i : Z) : Q * Q :=
  (band_edge lat0 w i, band_edge lat0 w (i + 1)).

(** [x] lies in the closed interval with ends [a] and [b], whichever of
    the two is the smaller. *)
Definition between (a b x : Q) : Prop :=
  (a <= x ∧ x <= b)%Q ∨ (b <= x ∧ x <= a)%Q.

(** [x] lies strictly inside that interval. *)
Definition strictly_between (a b x : Q) : Prop :=
  (a < x ∧ x < b)%Q ∨ (b < x ∧ x < a)%Q.

(** Two ranges with equal ends. *)
Definition range_eq (r s : Q * Q) : Prop := (r.1 == s.1 ∧ r.2 == s.2)%Q.

(** The number of batches: [ceil(len / B)], as [range] computes it. *)
Definition batch_count (len B : Z) : Z := (len + B - 1) `div` B.


(** The windows of the docstring of [_generate_baseline]: the element a
    baseline is created for, followed by [W] elements of baseline, that is
    [W + 1] elements from the offset of that element.  [baseline_offsets l W]
    are the offsets [k] in [0 .. len(l)] at which such a window is complete:
    [l[k:k+W+1]] has [W + 1] elements. *)
Definition baseline_offsets {A} (l : list A) (W : Z) : list Z :=
  filter (fun k => Z.of_nat (length (slice l k (k + (W + 1)))) = W + 1)
         (range (Z.of_nat (length l) + 1)).

(** [run] is a run of key [k]: not empty, all its elements of that key. *)
Definition is_run {A} (key : A → Z) (k : Z) (run : list A) : Prop :=
  run ≠ [] ∧ Forall (fun x => key x = k) run.

(** [g] is the group of the last run of key [k] in the scan of [l]. *)
Definition last_run_group {A} (key : A → Z) (l : list A) (k : Z) (g : grouper A)
    : Prop :=
  ∃ (i : nat) (run : list A),
    group_runs key l !! i = Some (k, run) ∧ g = Grouper i run ∧
    ∀ (j : nat) run', (i < j)%nat → group_runs key l !! j ≠ Some (k, run').

(** Every adjacent run of the scan of [l] has its own group in the
    mapping [d]. *)
Definition separate_groups {A} (key : A → Z) (l : list A) (d : gmap Z (grouper A))
    : Prop :=
  ∀ (i : nat) k run,
    group_runs key l !! i = Some (k, run) → ∃ k', d !! k' = Some (Grouper i run).

(** [runs] splits [l] into its adjacent runs of equal key: joined they give
    [l] back, each is a run of its key, and neighbours differ in key. *)
Definition adjacent_runs {A} (key : A → Z) (l : list A) (runs : list (Z * list A))
    : Prop :=
  concat (runs.*2) = l ∧
  Forall (fun kr => is_run key kr.1 kr.2) runs ∧
  ∀ (i : nat) k run k' run',
    runs !! i = Some (k, run) → runs !! S i = Some (k', run') → k ≠ k'.

(** The elements of one key are adjacent in [l]: between two elements of
    the same key there are only elements of that key. *)
Definition key_adjacent {A} (key : A → Z) (l : list A) : Prop :=
  ∀ (i j k : nat) x y z,
    (i < j)%nat → (j < k)%nat →
    l !! i = Some x → l !! j = Some y → l !! k = Some z →
    key x = key z → key y = key x.
(** * Properties *)

(** ** GeographicChunker *)

Lemma chunks_of_ranges (lon : list Q) (ranges : list (Q * Q)) :
  (fun pair : list Q * (Q * Q) => mkChunk pair.1 pair.2)
    <$> zip ((fun _ => lon) <$> ranges) ranges
  = mkChunk lon <$> ranges.
Proof. induction ranges as [|r l IH]; csimpl; [done | by rewrite IH]. Qed.

(** The function on a pair of two-element ranges, with the failing
    divisions made explicit. *)
Lemma create_geographic_chunks_eq (lat0 lat1 lon0 lon1 size : Q) :
  create_geographic_chunks (Some [lon0; lon1]) (Some [lat0; lat1]) size =
  if Qeq_bool size 0 then raise ZeroDivisionError
  else
    let n := Qceiling ((lat1 - lat0) * (lon1 - lon0) / size) in
    if Qeq_bool (inject_Z n) 0 then raise ZeroDivisionError
    else ret ((fun i => mkChunk [lon0; lon1] (band lat0 ((lat1 - lat0) / inject_Z n) i))
                <$> range n).
Proof.
  unfold create_geographic_chunks. simpl. unfold truediv.
  destruct (Qeq_bool size 0); [done|]. simpl.
  destruct (Qeq_bool _ 0); [done|]. simpl.
  rewrite chunks_of_ranges, <- list_fmap_compose. done.
Qed.

Lemma band_edge_0 lat0 w : (band_edge lat0 w 0 == lat0)%Q.
Proof. unfold band_edge. simpl. ring. Qed.

Lemma band_edge_succ lat0 w i :
  (band_edge lat0 w (i + 1) == band_edge lat0 w i + w)%Q.
Proof. unfold band_edge. rewrite inject_Z_plus. simpl. ring. Qed.

Lemma inject_Z_nonzero n : n ≠ 0 → ¬ (inject_Z n == 0)%Q.
Proof. intros Hn H. apply Hn. by apply (inject_Z_injective n 0). Qed.

Lemma band_edge_last lat0 lat1 n :
  n ≠ 0 → (band_edge lat0 ((lat1 - lat0) / inject_Z n) n == lat1)%Q.
Proof.
  intros Hn. unfold band_edge. field. by apply inject_Z_nonzero.
Qed.

Lemma band_edge_diff lat0 w i j :
  (band_edge lat0 w j - band_edge lat0 w i == w * inject_Z (j - i))%Q.
Proof.
  unfold band_edge, Z.sub. rewrite inject_Z_plus, inject_Z_opp. ring.
Qed.

Lemma band_edge_le lat0 w i j :
  (0 <= w)%Q → i ≤ j → (band_edge lat0 w i <= band_edge lat0 w j)%Q.
Proof.
  intros Hw Hij. pose proof (band_edge_diff lat0 w i j) as Hd.
  assert (0 <= inject_Z (j - i))%Q as Hz by (rewrite <- (Zle_Qle 0); lia).
  pose proof (Qmult_le_0_compat _ _ Hw Hz). lra.
Qed.

Lemma band_edge_ge lat0 w i j :
  (w <= 0)%Q → i ≤ j → (band_edge lat0 w j <= band_edge lat0 w i)%Q.
Proof.
  intros Hw Hij. pose proof (band_edge_diff lat0 w i j) as Hd.
  assert (0 <= inject_Z (j - i))%Q as Hz by (rewrite <- (Zle_Qle 0); lia).
  assert (0 <= - w)%Q as Hw' by lra.
  pose proof (Qmult_le_0_compat _ _ Hw' Hz). lra.
Qed.

(** The edges are monotone, so an edge between two others lies between
    them. *)
Lemma band_edge_between lat0 w i j k :
  i ≤ j → j ≤ k →
  between (band_edge lat0 w i) (band_edge lat0 w k) (band_edge lat0 w j).
Proof.
  intros Hij Hjk. destruct (Qlt_le_dec w 0) as [Hw|Hw].
  - right. split; apply band_edge_ge; auto; lra.
  - left. split; apply band_edge_le; auto.
Qed.

Lemma between_split a b c x :
  between a c b → between a c x → between a b x ∨ between b c x.
Proof.
  unfold between. intros Hb Hx.
  destruct (Qlt_le_dec x b); [destruct (Qlt_le_dec a c) | destruct (Qlt_le_dec a c)];
    intuition lra.
Qed.

Lemma between_convex a b c d x :
  between a d b → between a d c → between b c x → between a d x.
Proof. unfold between. intuition lra. Qed.

(** Every point of the range spanned by the first [k] bands is in one of
    them. *)
Lemma bands_cover lat0 w (k : nat) x :
  (0 < k)%nat →
  between (band_edge lat0 w 0) (band_edge lat0 w (Z.of_nat k)) x →
  ∃ i : nat, (i < k)%nat ∧
    between (band_edge lat0 w (Z.of_nat i)) (band_edge lat0 w (Z.of_nat i + 1)) x.
Proof.
  induction k as [|k IH]; [lia|]. intros _ Hx.
  destruct k as [|k].
  - exists 0%nat. split; [lia|]. exact Hx.
  - destruct (between_split (band_edge lat0 w 0) (band_edge lat0 w (Z.of_nat (S k)))
                (band_edge lat0 w (Z.of_nat (S (S k)))) x) as [H|H].
    + apply band_edge_between; lia.
    + exact Hx.
    + destruct IH as (i & Hi & Hb); [lia | exact H |].
      exists i. split; [lia | exact Hb].
    + exists (S k). split; [lia|].
      by replace (Z.of_nat (S k) + 1) with (Z.of_nat (S (S k))) by lia.
Qed.

Lemma band_in_span lat0 w n i x :
  0 ≤ i → i < n →
  between (band_edge lat0 w i) (band_edge lat0 w (i + 1)) x →
  between (band_edge lat0 w 0) (band_edge lat0 w n) x.
Proof.
  intros Hi Hn. apply between_convex; apply band_edge_between; lia.
Qed.

(** Two different bands share no interior point. *)
Lemma bands_disjoint lat0 w i j x :
  i < j →
  strictly_between (band_edge lat0 w i) (band_edge lat0 w (i + 1)) x →
  strictly_between (band_edge lat0 w j) (band_edge lat0 w (j + 1)) x →
  False.
Proof.
  intros Hij Hi Hj. unfold strictly_between in *.
  destruct (Qlt_le_dec w 0) as [Hw|Hw].
  - assert (w <= 0)%Q as Hw' by lra.
    pose proof (band_edge_ge lat0 w (i + 1) j Hw' ltac:(lia)).
    pose proof (band_edge_ge lat0 w i (i + 1) Hw' ltac:(lia)).
    pose proof (band_edge_ge lat0 w j (j + 1) Hw' ltac:(lia)).
    intuition lra.
  - pose proof (band_edge_le lat0 w (i + 1) j Hw ltac:(lia)).
    pose proof (band_edge_le lat0 w i (i + 1) Hw ltac:(lia)).
    pose proof (band_edge_le lat0 w j (j + 1) Hw ltac:(lia)).
    intuition lra.
Qed.

(** A positive ratio has a ceiling of at least one. *)
Lemma Qceiling_pos x : (0 < x)%Q → 1 ≤ Qceiling x.
Proof.
  intros Hx. pose proof (Qle_ceiling x) as Hc.
  assert (0 < inject_Z (Qceiling x))%Q as H by lra.
  rewrite <- (Zlt_Qlt 0) in H. lia.
Qed.

(** A ratio that is not positive has a ceiling that is not positive. *)
Lemma Qceiling_nonpos x : (x <= 0)%Q → Qceiling x ≤ 0.
Proof.
  intros Hx. pose proof (Qceiling_lt x) as Hc.
  assert (inject_Z (Qceiling x - 1) < inject_Z 0)%Q as H
    by (apply Qlt_le_trans with x; [exact Hc | exact Hx]).
  rewrite <- Zlt_Qlt in H. lia.
Qed.

Lemma chunk_lookup (lon : list Q) lat0 w n (i : nat) c :
  ((fun k => mkChunk lon (band lat0 w k)) <$> range n) !! i = Some c ↔
  c = mkChunk lon (band lat0 w (Z.of_nat i)) ∧ Z.of_nat i < n.
Proof.
  unfold range. rewrite list_lookup_fmap, fmap_Some. split.
  - intros (k & Hk & ->). apply lookup_seqZ in Hk as [-> ?]. done.
  - intros [-> Hi]. exists (Z.of_nat i). split; [|done].
    apply lookup_seqZ. done.
Qed.

(** With an area and a chunk size that are both positive the call returns
    the bands [0 .. n-1], [n] the ceiling of their ratio. *)
Lemma create_geographic_chunks_positive (lat0 lat1 lon0 lon1 size : Q) :
  (0 < (lat1 - lat0) * (lon1 - lon0))%Q → (0 < size)%Q →
  let n := Qceiling ((lat1 - lat0) * (lon1 - lon0) / size) in
  1 ≤ n ∧
  create_geographic_chunks (Some [lon0; lon1]) (Some [lat0; lat1]) size =
    inr ((fun i => mkChunk [lon0; lon1] (band lat0 ((lat1 - lat0) / inject_Z n) i))
           <$> range n).
Proof.
  intros Ha Hs n.
  assert (1 ≤ n) as Hn.
  { apply Qceiling_pos. apply Qlt_shift_div_l; [done | lra]. }
  split; [done|]. rewrite create_geographic_chunks_eq. cbv zeta. fold n.
  destruct (Qeq_bool size 0) eqn:E1.
  { apply Qeq_bool_eq in E1. lra. }
  destruct (Qeq_bool (inject_Z n) 0) eqn:E2.
  { apply Qeq_bool_eq in E2. apply inject_Z_nonzero in E2; [done | lia]. }
  reflexivity.
Qed.

(** C1. For a latitude range and a longitude range of positive area and a
    positive target chunk area, [create_geographic_chunks] returns exactly
    [ceil(area / target_area)] descriptors, at least one; band [i] is
    [lat0 + i * band_width, lat0 + (i + 1) * band_width]; consecutive bands
    share their common end, all bands have the same width, two different
    bands have no interior point in common, and the bands together cover
    exactly the latitude range, from [lat0] to [lat1]. *)
Theorem create_geographic_chunks_partition (lat0 lat1 lon0 lon1 target_area : Q) :
  (0 < (lat1 - lat0) * (lon1 - lon0))%Q →
  (0 < target_area)%Q →
  let n := Qceiling ((lat1 - lat0) * (lon1 - lon0) / target_area) in
  let band_width := ((lat1 - lat0) / inject_Z n)%Q in
  ∃ chunks : list ChunkDescriptor,
    create_geographic_chunks (Some [lon0; lon1]) (Some [lat0; lat1]) target_area
      = inr chunks ∧
    1 ≤ n ∧ length chunks = Z.to_nat n ∧
    (∀ (i : nat) c, chunks !! i = Some c →
       range_eq (latitude c)
         (lat0 + inject_Z (Z.of_nat i) * band_width,
          lat0 + (inject_Z (Z.of_nat i) + 1) * band_width)%Q) ∧
    (∀ (i : nat) c c', chunks !! i = Some c → chunks !! S i = Some c' →
       (latitude c).2 = (latitude c').1) ∧
    (∀ c, c ∈ chunks → ((latitude c).2 - (latitude c).1 == band_width)%Q) ∧
    (∀ (i j : nat) c c' x, i ≠ j → chunks !! i = Some c → chunks !! j = Some c' →
       ¬ (strictly_between (latitude c).1 (latitude c).2 x ∧
          strictly_between (latitude c').1 (latitude c').2 x)) ∧
    (∀ x, between lat0 lat1 x ↔
          ∃ c, c ∈ chunks ∧ between (latitude c).1 (latitude c).2 x) ∧
    (∀ c, head chunks = Some c → ((latitude c).1 == lat0)%Q) ∧
    (∀ c, last chunks = Some c → ((latitude c).2 == lat1)%Q).
Proof.
  intros Ha Hs n w.
  destruct (create_geographic_chunks_positive lat0 lat1 lon0 lon1 target_area Ha Hs)
    as [Hn Heq].
  fold n in Hn, Heq. fold w in Heq.
  eexists. split; [exact Heq|].
  assert (band_edge lat0 w n == lat1)%Q as Hlast by (apply band_edge_last; lia).
  pose proof (band_edge_0 lat0 w) as Hfirst.
  split; [done|]. split; [by rewrite length_fmap; apply length_seqZ|].
  repeat split.
  - apply chunk_lookup in H as [-> _]. simpl. unfold band_edge. ring.
  - apply chunk_lookup in H as [-> _]. simpl. unfold band_edge.
    rewrite inject_Z_plus. simpl. ring.
  - intros i c c' Hc Hc'.
    apply chunk_lookup in Hc as [-> _]. apply chunk_lookup in Hc' as [-> _].
    simpl. f_equal. lia.
  - intros c Hc. apply list_elem_of_lookup in Hc as [i Hc].
    apply chunk_lookup in Hc as [-> _]. simpl. rewrite band_edge_succ. ring.
  - intros i j c c' x Hij Hc Hc' [Hx Hx'].
    apply chunk_lookup in Hc as [-> _]. apply chunk_lookup in Hc' as [-> _].
    simpl in Hx, Hx'.
    destruct (decide (i < j)%nat).
    + apply (bands_disjoint lat0 w (Z.of_nat i) (Z.of_nat j) x); [lia|done..].
    + apply (bands_disjoint lat0 w (Z.of_nat j) (Z.of_nat i) x); [lia|done..].
  - intros Hx.
    destruct (bands_cover lat0 w (Z.to_nat n) x) as (i & Hi & Hb); [lia| |].
    { rewrite Z2Nat.id by lia. unfold between in *. lra. }
    exists (mkChunk [lon0; lon1] (band lat0 w (Z.of_nat i))). split; [|exact Hb].
    apply list_elem_of_lookup. exists i. apply chunk_lookup. split; [done | lia].
  - intros (c & Hc & Hx). apply list_elem_of_lookup in Hc as [i Hc].
    apply chunk_lookup in Hc as [-> Hi]. simpl in Hx.
    apply (band_in_span lat0 w n) in Hx; [|lia..].
    unfold between in *. lra.
  - intros c Hc. rewrite head_lookup in Hc.
    apply chunk_lookup in Hc as [-> _]. simpl. exact Hfirst.
  - intros c Hc. rewrite last_lookup, length_fmap in Hc.
    unfold range in Hc. rewrite length_seqZ in Hc.
    apply chunk_lookup in Hc as [-> _]. simpl.
    replace (Z.of_nat (Init.Nat.pred (Z.to_nat n)) + 1) with n by lia. exact Hlast.
Qed.

Lemma create_geographic_chunks_partition_witness :
  ∃ chunks : list ChunkDescriptor,
    create_geographic_chunks (Some [10#1; 20#1]) (Some [0#1; 1#1]) (1#2) = inr chunks ∧
    length chunks = 20%nat.
Proof.
  destruct (create_geographic_chunks_partition (0#1) (1#1) (10#1) (20#1) (1#2))
    as (chunks & Heq & _ & Hlen & _); [reflexivity | reflexivity |].
  exists chunks. split; [exact Heq | exact Hlen].
Defined.

(** Without a positive area no band is ever built: the ceiling is zero or
    negative, and [range] of it is empty. *)
Lemma create_geographic_chunks_nonpositive (lat0 lat1 lon0 lon1 size : Q) :
  ((lat1 - lat0) * (lon1 - lon0) <= 0)%Q → (0 < size)%Q →
  let n := Qceiling ((lat1 - lat0) * (lon1 - lon0) / size) in
  n ≤ 0 ∧
  create_geographic_chunks (Some [lon0; lon1]) (Some [lat0; lat1]) size =
    if decide (n = 0) then raise ZeroDivisionError else ret [].
Proof.
  intros Ha Hs n.
  assert (n ≤ 0) as Hn.
  { apply Qceiling_nonpos. apply Qle_shift_div_r; [done | lra]. }
  split; [done|]. rewrite create_geographic_chunks_eq. cbv zeta. fold n.
  destruct (Qeq_bool size 0) eqn:E1.
  { apply Qeq_bool_eq in E1. lra. }
  destruct (decide (n = 0)) as [->|Hn0]; [done|].
  destruct (Qeq_bool (inject_Z n) 0) eqn:E2.
  { apply Qeq_bool_eq in E2. by apply inject_Z_nonzero in E2. }
  unfold range. rewrite seqZ_nil by lia. done.
Qed.

(** A degenerate box whose area is zero, or negative and smaller in size
    than the chunk area, makes the band width a division by zero. *)
Lemma create_geographic_chunks_zero_count (lat0 lat1 lon0 lon1 size : Q) :
  ((lat1 - lat0) * (lon1 - lon0) <= 0)%Q → (0 < size)%Q →
  (- size < (lat1 - lat0) * (lon1 - lon0))%Q →
  create_geographic_chunks (Some [lon0; lon1]) (Some [lat0; lat1]) size
    = inl ZeroDivisionError.
Proof.
  intros Ha Hs Hlow.
  destruct (create_geographic_chunks_nonpositive lat0 lat1 lon0 lon1 size Ha Hs)
    as [Hn ->].
  set (x := ((lat1 - lat0) * (lon1 - lon0) / size)%Q) in *.
  assert (-1 < x)%Q as Hx.
  { apply Qlt_shift_div_l; [done | lra]. }
  pose proof (Qle_ceiling x) as Hc.
  assert (inject_Z (-1) < inject_Z (Qceiling x))%Q as H
    by (apply Qlt_le_trans with x; [exact Hx | exact Hc]).
  rewrite <- Zlt_Qlt in H.
  destruct (decide (Qceiling x = 0)); [done | lia].
Qed.

(** C3, as amended. For a latitude and longitude range whose area is zero
    or negative and a positive chunk area, [create_geographic_chunks] never
    returns a chunk: whatever it returns is the empty list; and when the
    area is at most minus the chunk area it does return, without an error
    and with no chunk at all. *)
Theorem create_geographic_chunks_degenerate (lat0 lat1 lon0 lon1 size : Q) :
  ((lat1 - lat0) * (lon1 - lon0) <= 0)%Q →
  (0 < size)%Q →
  (∀ chunks,
     create_geographic_chunks (Some [lon0; lon1]) (Some [lat0; lat1]) size = inr chunks →
     chunks = []) ∧
  (((lat1 - lat0) * (lon1 - lon0) <= - size)%Q →
     create_geographic_chunks (Some [lon0; lon1]) (Some [lat0; lat1]) size = inr []).
Proof.
  intros Ha Hs.
  destruct (create_geographic_chunks_nonpositive lat0 lat1 lon0 lon1 size Ha Hs)
    as [Hn ->].
  split.
  - intros chunks. case_decide; [done|]. by intros [= <-].
  - intros Hlow. case_decide as Hz; [|done]. exfalso.
    set (x := ((lat1 - lat0) * (lon1 - lon0) / size)%Q) in *.
    assert (x <= -1)%Q as Hx.
    { apply Qle_shift_div_r; [done | lra]. }
    apply Qceiling_resp_le in Hx.
    change (Qceiling (-1)%Q) with (-1) in Hx. lia.
Qed.

Lemma create_geographic_chunks_degenerate_witness :
  create_geographic_chunks (Some [0#1; 1#1]) (Some [1#1; 0#1]) (1#2) = inr [].
Proof.
  apply (create_geographic_chunks_degenerate (1#1) (0#1) (0#1) (1#1) (1#2));
    [unfold Qle; simpl; lia | reflexivity | unfold Qle; simpl; lia].
Defined.

(** C3, as stated, fails on the box with latitudes [1 .. 0] and longitudes
    [0 .. 1]: its area is [-1], and the call returns no chunk. *)
Lemma create_geographic_chunks_degenerate_counterexample :
  (((0#1) - (1#1)) * ((1#1) - (0#1)) <= 0)%Q ∧
  ¬ ∃ chunks,
      create_geographic_chunks (Some [0#1; 1#1]) (Some [1#1; 0#1]) (1#2) = inr chunks ∧
      (1 ≤ length chunks)%nat.
Proof.
  split; [unfold Qle; simpl; lia|].
  intros (chunks & Heq & Hlen). vm_compute in Heq.
  injection Heq as <-. simpl in Hlen. lia.
Qed.

(** A box reduced to one latitude has a zero area, and the call raises. *)
Example create_geographic_chunks_zero_area :
  create_geographic_chunks (Some [0#1; 1#1]) (Some [0#1; 0#1]) (1#2)
    = inl ZeroDivisionError.
Proof. reflexivity. Qed.

(** C8. Every descriptor that [create_geographic_chunks] returns carries
    the longitude range it was given, unchanged: the same for all
    descriptors. *)
Theorem create_geographic_chunks_longitude
    (lon lat : option (list Q)) (size : Q) (chunks : list ChunkDescriptor) :
  create_geographic_chunks lon lat size = inr chunks →
  ∀ c, c ∈ chunks → Some (longitude c) = lon.
Proof.
  unfold create_geographic_chunks. intros H c Hc.
  destruct (truthy lat && truthy lon) eqn:Et; [|done]. simpl in H.
  destruct lon as [lon|]; [|by rewrite andb_false_r in Et]. simpl in H.
  destruct (getitem (default [] lat) 1) as [|lat1]; [done|]. simpl in H.
  destruct (getitem (default [] lat) 0) as [|lat0]; [done|]. simpl in H.
  destruct (getitem lon 1) as [|lon1]; [done|]. simpl in H.
  destruct (getitem lon 0) as [|lon0]; [done|]. simpl in H.
  destruct (truediv _ size) as [|ratio]; [done|]. simpl in H.
  destruct (truediv _ (inject_Z _)) as [|w]; [done|]. simpl in H.
  injection H as <-. rewrite chunks_of_ranges in Hc.
  apply list_elem_of_fmap in Hc as (r & -> & _). done.
Qed.

Lemma create_geographic_chunks_longitude_witness :
  Some (longitude (mkChunk [10#1; 20#1] ((0 + (1 / 1) * 0)%Q, (0 + (1 / 1) * 1)%Q)))
  = Some [10#1; 20#1].
Proof.
  apply (create_geographic_chunks_longitude
           (Some [10#1; 20#1]) (Some [0#1; 1#1]) (10#1)
           [mkChunk [10#1; 20#1] ((0 + (1 / 1) * 0)%Q, (0 + (1 / 1) * 1)%Q)]).
  - reflexivity.
  - constructor.
Defined.

(** C9. When the latitude range or the longitude range is absent or empty,
    [create_geographic_chunks] raises [AssertionError], whatever its other
    arguments, and so before any band is computed. *)
Theorem create_geographic_chunks_requires_ranges
    (lon lat : option (list Q)) (size : Q) :
  lat = None ∨ lat = Some [] ∨ lon = None ∨ lon = Some [] →
  create_geographic_chunks lon lat size = inl AssertionError.
Proof.
  unfold create_geographic_chunks.
  intros [-> | [-> | [-> | ->]]]; simpl; try done;
    by rewrite andb_false_r.
Qed.

Lemma create_geographic_chunks_requires_ranges_witness :
  create_geographic_chunks (Some []) (Some [0#1; 1#1]) (1#2) = inl AssertionError.
Proof.
  apply create_geographic_chunks_requires_ranges. right. right. right. reflexivity.
Defined.

(** The box [0 .. 1] by [10 .. 20] with chunks of area 1/2: twenty bands of
    height 1/20. *)
Example create_geographic_chunks_twenty :
  (let* chunks := create_geographic_chunks (Some [10#1; 20#1]) (Some [0#1; 1#1]) (1#2)
   in ret (length chunks, latitude <$> chunks !! 1%nat))
  = ret (20%nat, Some (0 + (1 / 20) * 1, 0 + (1 / 20) * 2)%Q).
Proof. vm_compute. reflexivity. Qed.

(** ** TemporalChunker *)

(** *** The order on datetimes *)

Lemma lex_compare_antisym a b : lex_compare b a = CompOpp (lex_compare a b).
Proof.
  revert b. induction a as [|x a IH]; intros [|y b]; simpl; try done.
  rewrite (Z.compare_antisym x y). destruct (x ?= y); simpl; auto.
Qed.

Lemma lex_compare_eq a b : lex_compare a b = Eq → a = b.
Proof.
  revert b. induction a as [|x a IH]; intros [|y b]; simpl; try done.
  destruct (Z.compare_spec x y) as [->| |]; try done. intros Hc. f_equal; auto.
Qed.

Lemma lex_compare_refl a : lex_compare a a = Eq.
Proof. induction a as [|x a IH]; simpl; [done|]. by rewrite Z.compare_refl. Qed.

Lemma lex_compare_le_trans a b c :
  lex_compare a b ≠ Gt → lex_compare b c ≠ Gt → lex_compare a c ≠ Gt.
Proof.
  revert b c. induction a as [|x a IH]; intros [|y b] [|z c]; simpl; try done.
  destruct (Z.compare_spec x y), (Z.compare_spec y z), (Z.compare_spec x z);
    try done; try lia. apply IH.
Qed.

Lemma dt_le_compare a b :
  dt_le a b ↔ lex_compare (dt_fields a) (dt_fields b) ≠ Gt.
Proof.
  unfold dt_le, dt_lt. rewrite (lex_compare_antisym (dt_fields a)).
  destruct (lex_compare (dt_fields a) (dt_fields b)); simpl; split; done.
Qed.

Lemma dt_fields_inj a b : dt_fields a = dt_fields b → a = b.
Proof. destruct a, b. unfold dt_fields. simpl. by intros [= -> -> -> -> -> -> ->]. Qed.

Global Instance dt_le_total : Total dt_le.
Proof.
  intros a b. rewrite !dt_le_compare, (lex_compare_antisym (dt_fields a)).
  destruct (lex_compare (dt_fields a) (dt_fields b)); simpl; auto.
Qed.

Global Instance dt_le_trans : Transitive dt_le.
Proof. intros a b c. rewrite !dt_le_compare. apply lex_compare_le_trans. Qed.

Global Instance dt_le_refl : Reflexive dt_le.
Proof. intros a. rewrite dt_le_compare, lex_compare_refl. done. Qed.

Global Instance dt_le_antisym : AntiSymm (=) dt_le.
Proof.
  intros a b. rewrite !dt_le_compare, (lex_compare_antisym (dt_fields a)).
  destruct (lex_compare (dt_fields a) (dt_fields b)) eqn:E; simpl; try done.
  intros _ _. by apply dt_fields_inj, lex_compare_eq.
Qed.

(** *** Sorting *)

Section sorted_properties.
Context {A : Type} (R : relation A) `{!RelDecision R, !Total R, !Transitive R}.

Lemma sorted_Permutation (l : list A) (flag : bool) : sorted R l flag ≡ₚ l.
Proof.
  unfold sorted. destruct flag.
  - by rewrite reverse_Permutation, merge_sort_Permutation, reverse_Permutation.
  - apply merge_sort_Permutation.
Qed.

Lemma sorted_ascending (l : list A) : StronglySorted R (sorted R l false).
Proof. apply StronglySorted_merge_sort; apply _. Qed.

Lemma sorted_descending (l : list A) : StronglySorted (flip R) (sorted R l true).
Proof.
  unfold sorted. apply Sorted_StronglySorted; [apply _|].
  apply Sorted_reverse, Sorted_merge_sort; apply _.
Qed.

(** With an antisymmetric order the outcome does not depend on the sorting
    algorithm: it is the only ordered arrangement of the input. *)
Lemma sorted_unique `{!AntiSymm (=) R} (l l' : list A) :
  l' ≡ₚ l → Sorted R l' → l' = sorted R l false.
Proof.
  intros Hp Hs. apply (Sorted_unique R); [done | apply Sorted_merge_sort; apply _ |].
  by rewrite Hp, sorted_Permutation.
Qed.

Lemma sorted_unique_reversed `{!AntiSymm (=) R} (l l' : list A) :
  l' ≡ₚ l → Sorted (flip R) l' → l' = sorted R l true.
Proof.
  intros Hp Hs. unfold sorted. apply (inj reverse). rewrite reverse_involutive.
  apply (Sorted_unique R).
  - apply Sorted_reverse in Hs. revert Hs. apply Sorted_ind; by constructor.
  - apply Sorted_merge_sort; apply _.
  - by rewrite merge_sort_Permutation, !reverse_Permutation.
Qed.
End sorted_properties.

(** *** Slices and fixed-size batches *)

Lemma slice_nonneg {A} (l : list A) (a b : Z) :
  0 ≤ a → 0 ≤ b →
  slice l a b = take (Z.to_nat (b - a)) (drop (Z.to_nat a) l).
Proof.
  intros Ha Hb. unfold slice, slice_bound.
  destruct (Z.ltb_spec a 0); [lia|]. destruct (Z.ltb_spec b 0); [lia|].
  set (len := Z.of_nat (length l)).
  destruct (decide (len ≤ a)) as [Hge|Hlt].
  - rewrite !drop_ge by lia. by rewrite !take_nil.
  - replace (Z.max 0 (Z.min len a)) with a by lia.
    destruct (decide (b ≤ len)).
    + by replace (Z.max 0 (Z.min len b)) with b by lia.
    + replace (Z.max 0 (Z.min len b)) with len by lia.
      rewrite !take_ge; [done | rewrite length_drop; lia..].
Qed.

Lemma concat_takes {A} (l : list A) (b c : nat) :
  concat ((fun k => take b (drop (k * b) l)) <$> seq 0 c) = take (c * b) l.
Proof.
  induction c as [|c IH]; [done|].
  rewrite seq_S, fmap_app, concat_app, IH. simpl.
  rewrite app_nil_r, take_take_drop. f_equal. lia.
Qed.

Lemma batch_count_bounds len B :
  0 < B → 0 ≤ len →
  0 ≤ batch_count len B ∧
  len ≤ batch_count len B * B ∧
  (batch_count len B - 1) * B < len.
Proof.
  intros HB Hlen. unfold batch_count.
  pose proof (Z.div_mod (len + B - 1) B ltac:(lia)) as Hdm.
  pose proof (Z.mod_pos_bound (len + B - 1) B HB) as Hm.
  assert (0 ≤ (len + B - 1) `div` B) by (apply Z.div_pos; lia).
  nia.
Qed.

Lemma chunk_iterable_eq {A} (l : list A) (B : Z) :
  0 < B →
  _chunk_iterable l B =
  inr ((fun k : nat => take (Z.to_nat B) (drop (k * Z.to_nat B) l))
         <$> seq 0 (Z.to_nat (batch_count (Z.of_nat (length l)) B))).
Proof.
  intros HB. unfold _chunk_iterable, range3.
  destruct (Z.eqb_spec B 0); [lia|]. destruct (Z.ltb_spec 0 B); [|lia].
  simpl. unfold ret. f_equal.
  replace (Z.of_nat (length l) - 0 + B - 1) with (Z.of_nat (length l) + B - 1) by lia.
  fold (batch_count (Z.of_nat (length l)) B).
  unfold seqZ. rewrite <- !list_fmap_compose.
  apply list_fmap_ext. intros _ k _. simpl.
  rewrite slice_nonneg by lia. f_equal; [f_equal; lia | f_equal; lia].
Qed.

(** The batches of [_chunk_iterable] for a positive size: their
    concatenation is the input, all but the last have the full size, and
    the last is not empty. *)
Lemma chunk_iterable_batches {A} (l : list A) (B : Z) :
  0 < B →
  ∃ batches,
    _chunk_iterable l B = inr batches ∧
    concat batches = l ∧
    (∀ (i : nat) b, batches !! i = Some b → (S i < length batches)%nat →
       Z.of_nat (length b) = B) ∧
    (∀ b, last batches = Some b → 0 < Z.of_nat (length b) ≤ B).
Proof.
  intros HB. eexists. split; [by apply chunk_iterable_eq|].
  set (len := Z.of_nat (length l)).
  destruct (batch_count_bounds len B HB ltac:(lia)) as (Hc0 & Hup & Hlow).
  set (c := batch_count len B) in *.
  split; [|split].
  - rewrite concat_takes. apply take_ge. subst len. lia.
  - intros i b Hb Hi. rewrite length_fmap, length_seq in Hi.
    rewrite list_lookup_fmap, fmap_Some in Hb. destruct Hb as (k & Hk & ->).
    apply lookup_seq in Hk as [-> _]. simpl.
    rewrite length_take, length_drop.
    assert ((Z.of_nat i + 1) * B ≤ (c - 1) * B)
      by (apply Z.mul_le_mono_nonneg_r; lia).
    subst len. lia.
  - intros b Hb. rewrite last_lookup, length_fmap, length_seq in Hb.
    rewrite list_lookup_fmap, fmap_Some in Hb. destruct Hb as (k & Hk & ->).
    apply lookup_seq in Hk as [-> Hk]. simpl in *.
    rewrite length_take, length_drop.
    assert (Z.of_nat (Init.Nat.pred (Z.to_nat c) * Z.to_nat B) = (c - 1) * B) as Hz
      by (rewrite Nat2Z.inj_mul; f_equal; lia).
    subst len. lia.
Qed.

(** C2. [create_time_chunks] sorts the timestamps, ascending unless
    [_reversed] is set and then descending; for a batch size [B > 0] it
    returns consecutive batches whose concatenation is the sorted list, each
    of length [B] except possibly the last, which is not empty and no longer
    than [B]; for the batch size [None] it returns the whole sorted list as a
    single batch. *)
Theorem create_time_chunks_batches
    (datetime_list : list datetime) (_reversed : bool) (B : Z) :
  0 < B →
  let datetimes_sorted := sorted dt_le datetime_list _reversed in
  datetimes_sorted ≡ₚ datetime_list ∧
  StronglySorted (if _reversed then flip dt_le else dt_le) datetimes_sorted ∧
  (∃ batches,
     create_time_chunks datetime_list _reversed (Some B) = inr batches ∧
     concat batches = datetimes_sorted ∧
     (∀ (i : nat) b, batches !! i = Some b → (S i < length batches)%nat →
        Z.of_nat (length b) = B) ∧
     (∀ b, last batches = Some b → 0 < Z.of_nat (length b) ≤ B)) ∧
  create_time_chunks datetime_list _reversed None = inr [datetimes_sorted].
Proof.
  intros HB s. split; [apply sorted_Permutation|]. split.
  { subst s. destruct _reversed;
      [apply sorted_descending | apply sorted_ascending]; apply _. }
  split; [|done].
  unfold create_time_chunks. fold s. by apply chunk_iterable_batches.
Qed.

Lemma create_time_chunks_batches_witness :
  ∃ batches,
    create_time_chunks
      [mkDatetime 2021 3 1 0 0 0 0; mkDatetime 2019 7 4 12 0 0 0;
       mkDatetime 2020 1 31 0 0 0 0] false (Some 2) = inr batches ∧
    concat batches =
      sorted dt_le
        [mkDatetime 2021 3 1 0 0 0 0; mkDatetime 2019 7 4 12 0 0 0;
         mkDatetime 2020 1 31 0 0 0 0] false.
Proof.
  destruct (create_time_chunks_batches
              [mkDatetime 2021 3 1 0 0 0 0; mkDatetime 2019 7 4 12 0 0 0;
               mkDatetime 2020 1 31 0 0 0 0] false 2)
    as (_ & _ & (batches & Heq & Hcat & _) & _); [lia|].
  exists batches. split; [exact Heq | exact Hcat].
Defined.

Example create_time_chunks_ascending :
  create_time_chunks
    [mkDatetime 2021 3 1 0 0 0 0; mkDatetime 2019 7 4 12 0 0 0;
     mkDatetime 2020 1 31 0 0 0 0] false (Some 2)
  = inr [[mkDatetime 2019 7 4 12 0 0 0; mkDatetime 2020 1 31 0 0 0 0];
         [mkDatetime 2021 3 1 0 0 0 0]].
Proof. vm_compute. reflexivity. Qed.

Example create_time_chunks_descending :
  create_time_chunks
    [mkDatetime 2021 3 1 0 0 0 0; mkDatetime 2019 7 4 12 0 0 0;
     mkDatetime 2020 1 31 0 0 0 0] true (Some 2)
  = inr [[mkDatetime 2021 3 1 0 0 0 0; mkDatetime 2020 1 31 0 0 0 0];
         [mkDatetime 2019 7 4 12 0 0 0]].
Proof. vm_compute. reflexivity. Qed.

(** Twenty-five timestamps in batches of ten: sizes 10, 10 and 5. *)
Example create_time_chunks_25 :
  (let* batches :=
     create_time_chunks ((fun i => mkDatetime 2020 1 (26 - i) 0 0 0 0) <$> seqZ 1 25)
       false (Some 10)
   in ret (length <$> batches))
  = inr [10; 10; 5]%nat.
Proof. vm_compute. reflexivity. Qed.

(** A batch size of zero is refused by [range], a negative one gives no
    batch. *)
Example create_time_chunks_zero_size :
  create_time_chunks [mkDatetime 2020 1 1 0 0 0 0] false (Some 0) = inl ValueError.
Proof. reflexivity. Qed.

(** ** SlidingWindowGenerator *)

Lemma filter_all {A} (P : A → Prop) `{!∀ x, Decision (P x)} (l : list A) :
  Forall P l → filter P l = l.
Proof.
  induction 1 as [|x l Hx _ IH]; [done|]. by rewrite filter_cons_True, IH.
Qed.

Lemma filter_none {A} (P : A → Prop) `{!∀ x, Decision (P x)} (l : list A) :
  Forall (fun x => ¬ P x) l → filter P l = [].
Proof.
  induction 1 as [|x l Hx _ IH]; [done|]. by rewrite filter_cons_False, IH.
Qed.

Lemma window_length {A} (l : list A) (W k : Z) :
  0 ≤ W → 0 ≤ k ≤ Z.of_nat (length l) →
  Z.of_nat (length (slice l k (k + W))) = W ↔ k + W ≤ Z.of_nat (length l).
Proof.
  intros HW Hk. rewrite slice_nonneg by lia.
  rewrite length_take, length_drop. split; lia.
Qed.

(** The complete windows of the docstring are those at the [len - W]
    offsets [0 .. len - W - 1]. *)
Lemma baseline_offsets_count {A} (l : list A) (W : Z) :
  0 ≤ W → W < Z.of_nat (length l) →
  baseline_offsets l W = range (Z.of_nat (length l) - W).
Proof.
  intros HW HL. unfold baseline_offsets, range.
  set (L := Z.of_nat (length l)).
  replace (L + 1) with ((L - W) + (W + 1)) by lia.
  rewrite seqZ_app, filter_app by lia.
  rewrite filter_all, filter_none; [by rewrite app_nil_r|..].
  - apply Forall_forall. intros k Hk%elem_of_seqZ.
    rewrite window_length by lia. lia.
  - apply Forall_forall. intros k Hk%elem_of_seqZ.
    rewrite window_length by lia. lia.
Qed.

Lemma generate_baseline_eq {A} (l : list A) (W : Z) :
  W < Z.of_nat (length l) →
  _generate_baseline l W =
  Windows [ (fun window => slice l window (window + W))
              <$> range (Z.of_nat (length l) - W - 1) ].
Proof.
  intros HL. unfold _generate_baseline.
  destruct (Z.leb_spec (Z.of_nat (length l)) W); [lia | done].
Qed.

(** C4. For a sequence of length [L] and a window length [W] with
    [0 <= W < L], [_generate_baseline] returns one list of exactly
    [L - W - 1] windows: one fewer than the [L - W] complete windows of its
    docstring, the most there can be; window [k] holds the [W] elements from
    offset [k], for the consecutive offsets from 0.  For [L = 5] and [W = 2]
    they are the windows at offsets 0 and 1, of two elements each. *)
Theorem generate_baseline_windows {A} (l : list A) (W : Z) :
  0 ≤ W →
  W < Z.of_nat (length l) →
  let L := Z.of_nat (length l) in
  ∃ windows : list (list A),
    _generate_baseline l W = Windows [windows] ∧
    Z.of_nat (length windows) = L - W - 1 ∧
    Z.of_nat (length (baseline_offsets l W)) = L - W ∧
    Z.of_nat (length windows) = Z.of_nat (length (baseline_offsets l W)) - 1 ∧
    (∀ k : nat, Z.of_nat k < L - W - 1 →
       windows !! k = Some (take (Z.to_nat W) (drop k l))) ∧
    (∀ w, w ∈ windows → Z.of_nat (length w) = W) ∧
    (L = 5 → W = 2 → windows = [take 2 l; take 2 (drop 1 l)]).
Proof.
  intros HW HL L. eexists. split; [by apply generate_baseline_eq|]. fold L.
  assert (∀ k : nat, Z.of_nat k < L - W - 1 →
    ((fun window => slice l window (window + W)) <$> range (L - W - 1)) !! k
    = Some (take (Z.to_nat W) (drop k l))) as Hlook.
  { intros k Hk. unfold range. rewrite list_lookup_fmap, lookup_seqZ_lt by lia.
    simpl. rewrite slice_nonneg by lia. do 3 f_equal; lia. }
  split; [|split; [|split; [|split; [|split]]]].
  - rewrite length_fmap. unfold range. rewrite length_seqZ. lia.
  - rewrite baseline_offsets_count by lia. unfold range.
    rewrite length_seqZ. subst L. lia.
  - rewrite baseline_offsets_count by lia. unfold range.
    rewrite length_fmap, !length_seqZ. subst L. lia.
  - exact Hlook.
  - intros w Hw. apply list_elem_of_fmap in Hw as (k & -> & Hk).
    apply elem_of_seqZ in Hk. apply window_length; subst L; lia.
  - intros H5 ->. rewrite H5.
    change (range (5 - 2 - 1)) with [0; 1]. simpl.
    rewrite !slice_nonneg by lia. done.
Qed.

Lemma generate_baseline_windows_witness :
  ∃ windows : list (list Z),
    _generate_baseline [10; 20; 30; 40; 50] 2 = Windows [windows] ∧
    windows = [[10; 20]; [20; 30]].
Proof.
  destruct (generate_baseline_windows [10; 20; 30; 40; 50] 2)
    as (windows & Heq & _ & _ & _ & _ & _ & Hw); [lia | simpl; lia |].
  exists windows. split; [exact Heq | by apply Hw].
Defined.

(** The docstring's own case, five elements and a baseline of two: it lists
    three windows, the code returns two. *)
Example generate_baseline_docstring_case :
  baseline_offsets [10; 20; 30; 40; 50] 2 = [0; 1; 2] ∧
  _generate_baseline [10; 20; 30; 40; 50] 2 = Windows [[[10; 20]; [20; 30]]].
Proof. split; reflexivity. Qed.

(** C10. For a sequence no longer than the window length,
    [_generate_baseline] returns the sequence itself, not a list of
    windows. *)
Theorem generate_baseline_short {A} (l : list A) (W : Z) :
  Z.of_nat (length l) ≤ W →
  _generate_baseline l W = Unchanged l.
Proof.
  intros HL. unfold _generate_baseline.
  destruct (Z.leb_spec (Z.of_nat (length l)) W); [done | lia].
Qed.

Lemma generate_baseline_short_witness :
  _generate_baseline [10; 20] 2 = Unchanged [10; 20].
Proof. apply generate_baseline_short. simpl. lia. Defined.

(** ** Grouping by calendar field *)

Section grouping.
Context {A : Type} (key : A → Z).

Lemma group_runs_cons x l :
  group_runs key (x :: l) =
  match group_runs key l with
  | (k, g) :: rest =>
      if key x =? k then (k, x :: g) :: rest else (key x, [x]) :: (k, g) :: rest
  | [] => [(key x, [x])]
  end.
Proof. done. Qed.

(** The runs, joined, give the input back. *)
Lemma group_runs_concat (l : list A) : concat ((group_runs key l).*2) = l.
Proof.
  induction l as [|x l IH]; [done|]. rewrite group_runs_cons.
  destruct (group_runs key l) as [|[k g] rest]; simpl in *.
  - by rewrite <- IH.
  - destruct (key x =? k); simpl; by rewrite <- IH.
Qed.

(** Each run is not empty and holds elements of one key. *)
Lemma group_runs_is_run (l : list A) :
  Forall (fun kr => is_run key kr.1 kr.2) (group_runs key l).
Proof.
  induction l as [|x l IH]; [constructor|]. rewrite group_runs_cons.
  destruct (group_runs key l) as [|[k g] rest].
  - repeat constructor; done.
  - apply Forall_cons in IH as [[Hne Hall] Hrest].
    destruct (Z.eqb_spec (key x) k) as [Hk|Hk].
    + constructor; [|done]. split; [done|]. by constructor.
    + constructor; [by repeat constructor|]. constructor; [|done]. by split.
Qed.

(** Neighbouring runs have different keys: a run ends where the key
    changes. *)
Lemma group_runs_adjacent (l : list A) (i : nat) k run k' run' :
  group_runs key l !! i = Some (k, run) →
  group_runs key l !! S i = Some (k', run') →
  k ≠ k'.
Proof.
  revert i k run k' run'. induction l as [|x l IH]; [done|].
  intros i k run k' run'. rewrite group_runs_cons.
  destruct (group_runs key l) as [|[k0 g0] rest] eqn:E; [done|].
  destruct (Z.eqb_spec (key x) k0) as [Hk|Hk].
  - destruct i as [|i]; simpl.
    + intros [= <- <-] H2. by apply (IH 0%nat k0 g0 k' run').
    + intros H1 H2. by apply (IH (S i) k run k' run').
  - destruct i as [|i]; simpl.
    + by intros [= <- <-] [= <- <-].
    + intros H1 H2. by apply (IH i k run k' run').
Qed.

Lemma groupby_lookup (l : list A) (i : nat) k g :
  groupby l key !! i = Some (k, g) ↔
  ∃ run, group_runs key l !! i = Some (k, run) ∧ g = Grouper i run.
Proof.
  unfold groupby. rewrite list_lookup_imap, fmap_Some. split.
  - intros ([k0 run] & Hr & [= -> ->]). by exists run.
  - intros (run & Hr & ->). by exists (k, run).
Qed.
End grouping.

Lemma dict_snoc {V} (pairs : list (Z * V)) kv :
  dict (pairs ++ [kv]) = <[kv.1 := kv.2]> (dict pairs).
Proof. unfold dict. by rewrite foldl_app. Qed.

(** The value that [dict] keeps for a key is that of the last pair with
    that key. *)
Lemma dict_lookup_Some {V} (pairs : list (Z * V)) k v :
  dict pairs !! k = Some v ↔
  ∃ i : nat, pairs !! i = Some (k, v) ∧
    ∀ (j : nat) v', (i < j)%nat → pairs !! j ≠ Some (k, v').
Proof.
  revert v. induction pairs as [|[k0 v0] pairs IH] using rev_ind; intros v.
  { unfold dict. simpl. rewrite lookup_empty. split; [done|]. by intros (i & ? & _). }
  rewrite dict_snoc. simpl. destruct (decide (k0 = k)) as [->|Hne].
  - rewrite lookup_insert_eq. split.
    + intros [= ->]. exists (length pairs). split.
      * by rewrite lookup_app_r, Nat.sub_diag.
      * intros j v' Hj Hl. apply lookup_lt_Some in Hl.
        rewrite length_app in Hl. simpl in Hl. lia.
    + intros (i & Hi & Hlast).
      destruct (decide (i < length pairs)%nat) as [Hlt|Hge].
      * exfalso. apply (Hlast (length pairs) v0 Hlt).
        by rewrite lookup_app_r, Nat.sub_diag.
      * rewrite lookup_app_r in Hi by lia.
        destruct (i - length pairs)%nat; [by injection Hi as -> | done].
  - rewrite lookup_insert_ne by done. rewrite IH. split.
    + intros (i & Hi & Hlast). exists i. split.
      * by apply lookup_app_l_Some.
      * intros j v' Hj Hl. apply lookup_app_Some in Hl as [Hl|[_ Hl]].
        -- by apply (Hlast j v').
        -- destruct (j - length pairs)%nat; [by injection Hl as -> | done].
    + intros (i & Hi & Hlast). exists i.
      apply lookup_app_Some in Hi as [Hi|[_ Hi]].
      * split; [done|]. intros j v' Hj Hl. apply (Hlast j v' Hj).
        by apply lookup_app_l_Some.
      * destruct (i - length pairs)%nat; [by injection Hi as -> | done].
Qed.

Lemma dict_groupby_last {A} (key : A → Z) (l : list A) k g :
  dict (groupby l key) !! k = Some g ↔ last_run_group key l k g.
Proof.
  rewrite dict_lookup_Some. unfold last_run_group. split.
  - intros (i & Hi & Hlast). apply groupby_lookup in Hi as (run & Hr & ->).
    exists i, run. split; [done|]. split; [done|].
    intros j run' Hj Hr'. apply (Hlast j (Grouper j run') Hj).
    apply groupby_lookup. by exists run'.
  - intros (i & run & Hr & -> & Hlast). exists i. split.
    + apply groupby_lookup. by exists run.
    + intros j g' Hj Hg. apply groupby_lookup in Hg as (run' & Hr' & _).
      by apply (Hlast j run').
Qed.

Lemma group_runs_adjacent_runs {A} (key : A → Z) (l : list A) :
  adjacent_runs key l (group_runs key l).
Proof.
  split; [apply group_runs_concat|]. split; [apply group_runs_is_run|].
  apply group_runs_adjacent.
Qed.

Lemma dict_lookup_is_Some {V} (pairs : list (Z * V)) k :
  is_Some (dict pairs !! k) ↔ k ∈ pairs.*1.
Proof.
  induction pairs as [|[k0 v0] pairs IH] using rev_ind.
  { unfold dict. simpl. rewrite lookup_empty, is_Some_alt, elem_of_nil. done. }
  rewrite dict_snoc, fmap_app, elem_of_app. simpl.
  rewrite lookup_insert_is_Some', IH, list_elem_of_singleton.
  split; intros [H|H]; auto.
Qed.

(** Every element of the list has its key in the mapping. *)
Lemma dict_groupby_keys {A} (key : A → Z) (l : list A) x :
  x ∈ l → is_Some (dict (groupby l key) !! key x).
Proof.
  intros Hx. apply dict_lookup_is_Some.
  rewrite <- (group_runs_concat key l) in Hx.
  apply list_elem_of_In, in_concat in Hx as (run & Hrun & Hx).
  apply list_elem_of_In in Hrun, Hx.
  apply list_elem_of_fmap in Hrun as ([k run'] & -> & Hkr). simpl in Hx.
  pose proof (group_runs_is_run key l) as Hall.
  rewrite Forall_forall in Hall. destruct (Hall _ Hkr) as [_ Hk].
  rewrite Forall_forall in Hk. simpl in Hk. rewrite (Hk x Hx).
  apply list_elem_of_lookup in Hkr as [i Hi].
  apply list_elem_of_fmap. exists (k, Grouper i run'). split; [done|].
  apply list_elem_of_lookup. exists i. apply groupby_lookup. by exists run'.
Qed.

(** C5. The mapping returned by [group_datetimes_by_month] does not depend
    on the inclusion list: for any two lists of months the result is the
    same, namely the grouping of the whole, unfiltered list; so every
    datetime of the list has its month as a key of the result, whether or
    not that month is in the inclusion list. *)
Theorem group_datetimes_by_month_ignores_months
    (datetime_list : list datetime) (months1 months2 : list Z) :
  group_datetimes_by_month datetime_list months1
    = group_datetimes_by_month datetime_list months2 ∧
  group_datetimes_by_month datetime_list months1
    = dict (groupby datetime_list month) ∧
  ∀ x, x ∈ datetime_list →
       is_Some (group_datetimes_by_month datetime_list months1 !! month x).
Proof.
  split; [done|]. split; [done|]. intros x Hx.
  unfold group_datetimes_by_month. by apply dict_groupby_keys.
Qed.

(** With an empty inclusion list a June datetime is grouped all the same. *)
Example group_datetimes_by_month_empty_months :
  group_datetimes_by_month [mkDatetime 2020 6 15 0 0 0 0] [] !! 6
  = Some (Grouper 0 [mkDatetime 2020 6 15 0 0 0 0]).
Proof. unfold group_datetimes_by_month, dict. simpl. apply lookup_insert_eq. Qed.

(** C6, as amended. The scan behind both grouping functions splits the
    list into its adjacent runs of equal year (or month), so a key that
    comes back after another key starts a new run and is never merged with
    its earlier run; the mapping returned holds one group per key, and that
    group is the one of the last run of the key. *)
Theorem grouping_keeps_last_run (datetime_list : list datetime) (months : list Z) :
  adjacent_runs year datetime_list (group_runs year datetime_list) ∧
  adjacent_runs month datetime_list (group_runs month datetime_list) ∧
  (∀ k g, group_datetimes_by_year datetime_list !! k = Some g ↔
          last_run_group year datetime_list k g) ∧
  (∀ k g, group_datetimes_by_month datetime_list months !! k = Some g ↔
          last_run_group month datetime_list k g).
Proof.
  split; [apply group_runs_adjacent_runs|].
  split; [apply group_runs_adjacent_runs|].
  split; intros k g; apply dict_groupby_last.
Qed.

(** C6, as stated, fails on three datetimes of the years 2000, 2001, 2000
    (months 1, 2, 1): the scan has three runs, and the first of them has no
    group in the mapping returned, which has the two keys only. *)
Lemma grouping_separate_groups_counterexample :
  let d1 := mkDatetime 2000 1 1 0 0 0 0 in
  let d2 := mkDatetime 2001 2 1 0 0 0 0 in
  let d3 := mkDatetime 2000 1 2 0 0 0 0 in
  let l := [d1; d2; d3] in
  group_runs year l = [(2000, [d1]); (2001, [d2]); (2000, [d3])] ∧
  group_runs month l = [(1, [d1]); (2, [d2]); (1, [d3])] ∧
  ¬ separate_groups year l (group_datetimes_by_year l) ∧
  ¬ separate_groups month l (group_datetimes_by_month l default_months).
Proof.
  intros d1 d2 d3 l. split; [reflexivity|]. split; [reflexivity|].
  split; intros Hsep.
  - destruct (Hsep 0%nat 2000 [d1] eq_refl) as [k' Hk'].
    apply dict_groupby_last in Hk'.
    destruct Hk' as (i & run & Hr & [= <- <-] & Hlast).
    injection Hr as <-. by apply (Hlast 2%nat [d3]); [lia|].
  - destruct (Hsep 0%nat 1 [d1] eq_refl) as [k' Hk'].
    apply dict_groupby_last in Hk'.
    destruct Hk' as (i & run & Hr & [= <- <-] & Hlast).
    injection Hr as <-. by apply (Hlast 2%nat [d3]); [lia|].
Qed.

(** ** ChunkCombiner *)

Global Instance Qle_total : Total Qle.
Proof. intros x y. destruct (Qlt_le_dec x y); [left | right]; lra. Qed.

Global Instance Qle_transitive : Transitive Qle.
Proof. intros x y z. apply Qle_trans. Qed.

Section combiner_properties.
Context {Dataset : Type} `{!XArray Dataset}.

Lemma combine_loop_seeded (c : Dataset) (chunks : list Dataset) :
  foldl (fun combined_chunks chunk =>
           match combined_chunks with
           | None => Some chunk
           | Some c => Some (combine_first c chunk)
           end) (Some c) chunks
  = Some (foldl combine_first c chunks).
Proof. revert c. induction chunks as [|x chunks IH]; intros c; simpl; auto. Qed.

Lemma combine_loop_cons (chunk : Dataset) (chunks : list Dataset) :
  combine_loop (chunk :: chunks) = Some (foldl combine_first chunk chunks).
Proof. unfold combine_loop. simpl. apply combine_loop_seeded. Qed.

(** X20. The combiner on an empty sequence reads an attribute of [None]. *)
Lemma combine_geographic_chunks_nil :
  combine_geographic_chunks (@nil Dataset) = inl AttributeError.
Proof. done. Qed.

(** C7. For a sequence of at least one chunk, [combine_geographic_chunks]
    reindexes the merged dataset with these indexers: for latitude its
    labels in descending order, for longitude its labels in ascending
    order; and for time, when the merged dataset has one, a tuple whose only
    element is the list of its labels in ascending order, which is not that
    list of labels. *)
Theorem combine_geographic_chunks_indices (chunk : Dataset) (chunks : list Dataset) :
  let combined := foldl combine_first chunk chunks in
  let indices := build_indices combined in
  combine_geographic_chunks (chunk :: chunks) = reindex combined indices ∧
  indices !! "latitude" = Some (Labels (sorted Qle (ds_latitude combined) true)) ∧
  StronglySorted (flip Qle) (sorted Qle (ds_latitude combined) true) ∧
  indices !! "longitude" = Some (Labels (sorted Qle (ds_longitude combined) false)) ∧
  StronglySorted Qle (sorted Qle (ds_longitude combined) false) ∧
  match ds_time combined with
  | Some values =>
      indices !! "time" = Some (Tuple [TimeLabels (sorted Z.le values false)]) ∧
      indices !! "time" ≠ Some (TimeLabels (sorted Z.le values false)) ∧
      StronglySorted Z.le (sorted Z.le values false)
  | None => indices !! "time" = None
  end.
Proof.
  intros combined indices.
  split. { unfold combine_geographic_chunks. by rewrite combine_loop_cons. }
  subst indices. unfold build_indices.
  split. { destruct (ds_time combined); by simplify_map_eq. }
  split. { apply sorted_descending; apply _. }
  split. { destruct (ds_time combined); by simplify_map_eq. }
  split. { apply sorted_ascending; apply _. }
  destruct (ds_time combined) as [values|].
  - split; [by simplify_map_eq|]. split; [by simplify_map_eq|].
    apply sorted_ascending; apply _.
  - by simplify_map_eq.
Qed.
End combiner_properties.

(** * Further properties *)

(** ** GeographicChunker: errors *)

(** X1. A box of zero area, a line or a point, makes the call raise
    [ZeroDivisionError] whatever the chunk size: the chunk count is zero
    and the band width divides by it. *)
Theorem create_geographic_chunks_flat_box (lat0 lat1 lon0 lon1 size : Q) :
  ((lat1 - lat0) * (lon1 - lon0) == 0)%Q →
  create_geographic_chunks (Some [lon0; lon1]) (Some [lat0; lat1]) size
    = inl ZeroDivisionError.
Proof.
  intros Ha. rewrite create_geographic_chunks_eq. cbv zeta.
  destruct (Qeq_bool size 0); [done|].
  assert (Qceiling ((lat1 - lat0) * (lon1 - lon0) / size) = 0) as ->; [|done].
  change 0 with (Qceiling 0). apply Qceiling_comp. rewrite Ha. unfold Qdiv. ring.
Qed.

Lemma create_geographic_chunks_flat_box_witness :
  create_geographic_chunks (Some [3#1; 7#1]) (Some [5#1; 5#1]) (1#2)
    = inl ZeroDivisionError.
Proof. apply create_geographic_chunks_flat_box. reflexivity. Defined.

(** X2. A chunk size of zero makes the call raise [ZeroDivisionError],
    whatever the two-element ranges: the area is divided by it. *)
Theorem create_geographic_chunks_zero_size (lat0 lat1 lon0 lon1 size : Q) :
  (size == 0)%Q →
  create_geographic_chunks (Some [lon0; lon1]) (Some [lat0; lat1]) size
    = inl ZeroDivisionError.
Proof.
  intros Hs. rewrite create_geographic_chunks_eq.
  apply Qeq_bool_iff in Hs. by rewrite Hs.
Qed.

Lemma create_geographic_chunks_zero_size_witness :
  create_geographic_chunks (Some [10#1; 20#1]) (Some [0#1; 1#1]) (0#1)
    = inl ZeroDivisionError.
Proof. apply create_geographic_chunks_zero_size. reflexivity. Defined.

(** X3. A non-empty range with a single bound makes the call raise
    [IndexError]. *)
Theorem create_geographic_chunks_short_range (lon lat : list Q) (size : Q) :
  lon ≠ [] → lat ≠ [] →
  (length lat < 2 ∨ length lon < 2)%nat →
  create_geographic_chunks (Some lon) (Some lat) size = inl IndexError.
Proof.
  intros Hlon Hlat Hshort. unfold create_geographic_chunks.
  destruct lat as [|a [|a' lat]]; [done| |];
    destruct lon as [|b [|b' lon]]; try done; simpl in Hshort; lia.
Qed.

Lemma create_geographic_chunks_short_range_witness :
  create_geographic_chunks (Some [10#1; 20#1]) (Some [5#1]) (1#2) = inl IndexError.
Proof.
  apply create_geographic_chunks_short_range; [done | done | left; simpl; lia].
Defined.

(** ** GeographicChunker: the order of the chunks *)

(** X5. For a box given with its smaller bounds first and a positive chunk
    size, the descriptors come in latitude order: every band starts at
    [lat0] or above, with its lower end no higher than its upper end, and a
    band ends no later than any later band starts. *)
Theorem create_geographic_chunks_ordered
    (lat0 lat1 lon0 lon1 size : Q) (chunks : list ChunkDescriptor) :
  (lat0 < lat1)%Q → (lon0 < lon1)%Q → (0 < size)%Q →
  create_geographic_chunks (Some [lon0; lon1]) (Some [lat0; lat1]) size = inr chunks →
  (∀ c, c ∈ chunks →
     (lat0 <= (latitude c).1 ∧ (latitude c).1 <= (latitude c).2)%Q) ∧
  (∀ (i j : nat) c c', (i < j)%nat →
     chunks !! i = Some c → chunks !! j = Some c' →
     ((latitude c).2 <= (latitude c').1)%Q).
Proof.
  intros Hlat Hlon Hs Heq.
  assert (0 < (lat1 - lat0) * (lon1 - lon0))%Q as Ha
    by (apply Qmult_lt_0_compat; lra).
  destruct (create_geographic_chunks_positive lat0 lat1 lon0 lon1 size Ha Hs)
    as [Hn Heq'].
  rewrite Heq' in Heq. injection Heq as <-.
  set (n := Qceiling ((lat1 - lat0) * (lon1 - lon0) / size)) in *.
  set (w := ((lat1 - lat0) / inject_Z n)%Q).
  assert (0 < inject_Z n)%Q as HN by (rewrite <- (Zlt_Qlt 0); lia).
  assert (0 <= w)%Q as Hw.
  { apply Qlt_le_weak, Qlt_shift_div_l; [done | lra]. }
  pose proof (band_edge_0 lat0 w) as Hfirst.
  split.
  - intros c Hc. apply list_elem_of_lookup in Hc as [i Hc].
    apply chunk_lookup in Hc as [-> Hi]. simpl.
    pose proof (band_edge_le lat0 w 0 (Z.of_nat i) Hw ltac:(lia)).
    pose proof (band_edge_le lat0 w (Z.of_nat i) (Z.of_nat i + 1) Hw ltac:(lia)).
    split; lra.
  - intros i j c c' Hij Hc Hc'.
    apply chunk_lookup in Hc as [-> _]. apply chunk_lookup in Hc' as [-> _].
    simpl. apply band_edge_le; [done | lia].
Qed.

Lemma create_geographic_chunks_ordered_witness :
  ((0 + (1 / 2) * 1 <= 0 + (1 / 2) * 1)%Q).
Proof.
  destruct (create_geographic_chunks_ordered (0#1) (1#1) (0#1) (3#1) (2#1)
           [mkChunk [0#1; 3#1] ((0 + (1 / 2) * 0)%Q, (0 + (1 / 2) * 1)%Q);
            mkChunk [0#1; 3#1] ((0 + (1 / 2) * 1)%Q, (0 + (1 / 2) * 2)%Q)]
           ltac:(reflexivity) ltac:(reflexivity) ltac:(reflexivity)
           ltac:(reflexivity)) as [_ Hord].
  exact (Hord 0%nat 1%nat _ _ ltac:(lia) eq_refl eq_refl).
Defined.

(** ** TemporalChunker: batch sizes that are not positive *)

(** X6. A batch size of zero makes [create_time_chunks] raise [ValueError]
    (the step of [range]), and a negative one makes it return no batch at
    all, whatever the timestamps: they are dropped without an error. *)
Theorem create_time_chunks_nonpositive_size
    (datetime_list : list datetime) (_reversed : bool) (B : Z) :
  B ≤ 0 →
  create_time_chunks datetime_list _reversed (Some B)
    = if decide (B = 0) then inl ValueError else inr [].
Proof.
  intros HB. unfold create_time_chunks, _chunk_iterable, range3.
  destruct (decide (B = 0)) as [->|Hne]; [done|].
  destruct (Z.eqb_spec B 0); [done|]. destruct (Z.ltb_spec 0 B); [lia|].
  set (len := Z.of_nat (length (sorted dt_le datetime_list _reversed))).
  assert ((0 - len - B - 1) `div` (- B) < 1) as Hdiv
    by (apply Z.div_lt_upper_bound; lia).
  rewrite seqZ_nil by lia. reflexivity.
Qed.

Lemma create_time_chunks_nonpositive_size_witness :
  create_time_chunks [mkDatetime 2020 1 1 0 0 0 0; mkDatetime 2019 1 1 0 0 0 0]
    false (Some (-3)) = inr [].
Proof.
  apply (create_time_chunks_nonpositive_size
           [mkDatetime 2020 1 1 0 0 0 0; mkDatetime 2019 1 1 0 0 0 0] false (-3)).
  lia.
Defined.

(** ** TemporalChunker: number of batches *)

(** X7. For a batch size [B > 0] there are [ceil(len / B)] batches; an empty
    list gives no batch, and only an empty list does, whereas without a
    batch size an empty list gives one empty batch. *)
Theorem create_time_chunks_count
    (datetime_list : list datetime) (_reversed : bool) (B : Z) :
  0 < B →
  ∃ batches,
    create_time_chunks datetime_list _reversed (Some B) = inr batches ∧
    Z.of_nat (length batches) = (Z.of_nat (length datetime_list) + B - 1) `div` B ∧
    (batches = [] ↔ datetime_list = []) ∧
    (datetime_list = [] → create_time_chunks datetime_list _reversed None = inr [[]]).
Proof.
  intros HB. unfold create_time_chunks.
  set (s := sorted dt_le datetime_list _reversed).
  assert (length s = length datetime_list) as Hlen
    by (apply Permutation_length, sorted_Permutation).
  eexists. split; [by apply chunk_iterable_eq|]. rewrite Hlen.
  set (len := Z.of_nat (length datetime_list)).
  destruct (batch_count_bounds len B HB ltac:(lia)) as (Hc0 & Hup & Hlow).
  fold (batch_count len B). set (c := batch_count len B) in *.
  split; [|split].
  - rewrite length_fmap, length_seq. lia.
  - rewrite <- !length_zero_iff_nil, length_fmap, length_seq. subst len. split.
    + intros Hz. assert (c = 0) by lia. lia.
    + intros Hz. assert (c ≤ 0); [|lia].
      destruct (decide (c ≤ 0)); [done|]. exfalso.
      assert (1 * B ≤ (c - 1) * B + B) by nia. nia.
  - intros ->. subst s. by destruct _reversed.
Qed.

Lemma create_time_chunks_count_witness :
  ∃ batches,
    create_time_chunks [mkDatetime 2020 1 1 0 0 0 0; mkDatetime 2019 1 1 0 0 0 0;
                        mkDatetime 2021 1 1 0 0 0 0] false (Some 2) = inr batches ∧
    Z.of_nat (length batches) = 2.
Proof.
  destruct (create_time_chunks_count
              [mkDatetime 2020 1 1 0 0 0 0; mkDatetime 2019 1 1 0 0 0 0;
               mkDatetime 2021 1 1 0 0 0 0] false 2)
    as (batches & Heq & Hlen & _); [lia|].
  exists batches. split; [exact Heq | exact Hlen].
Defined.

(** X8. A batch size that is at least the number of timestamps, of which there
    is at least one, gives the same result as no batch size: the sorted
    list as a single batch. *)
Theorem create_time_chunks_single_batch
    (datetime_list : list datetime) (_reversed : bool) (B : Z) :
  datetime_list ≠ [] →
  Z.of_nat (length datetime_list) ≤ B →
  create_time_chunks datetime_list _reversed (Some B)
    = create_time_chunks datetime_list _reversed None.
Proof.
  intros Hne HB. unfold create_time_chunks.
  set (s := sorted dt_le datetime_list _reversed).
  assert (length s = length datetime_list) as Hlen
    by (apply Permutation_length, sorted_Permutation).
  assert (0 < Z.of_nat (length datetime_list)) as Hpos
    by (destruct datetime_list; [done | simpl; lia]).
  rewrite chunk_iterable_eq by lia. rewrite Hlen.
  assert (batch_count (Z.of_nat (length datetime_list)) B = 1) as ->.
  { unfold batch_count. symmetry. apply (Z.div_unique _ _ 1 (Z.of_nat (length datetime_list) - 1)); lia. }
  simpl. rewrite drop_0, take_ge by lia. done.
Qed.

Lemma create_time_chunks_single_batch_witness :
  create_time_chunks [mkDatetime 2020 1 1 0 0 0 0; mkDatetime 2019 1 1 0 0 0 0]
    true (Some 10)
  = create_time_chunks [mkDatetime 2020 1 1 0 0 0 0; mkDatetime 2019 1 1 0 0 0 0]
    true None.
Proof.
  apply create_time_chunks_single_batch; [done | simpl; lia].
Defined.

(** ** TemporalChunker: order and content of the batches *)

Lemma concat_sorted_across {A} (R : relation A) (ls : list (list A))
    (i j : nat) (a b : list A) x y :
  StronglySorted R (concat ls) →
  (i < j)%nat → ls !! i = Some a → ls !! j = Some b →
  x ∈ a → y ∈ b → R x y.
Proof.
  revert i j. induction ls as [|l ls IH]; intros i j Hs Hij Ha Hb Hx Hy; [done|].
  simpl in Hs. apply StronglySorted_app in Hs as (Hcross & _ & Hrest).
  destruct i as [|i], j as [|j]; try lia; simpl in Ha, Hb.
  - injection Ha as ->. apply Hcross; [done|].
    apply list_elem_of_In, in_concat. exists b. split; apply list_elem_of_In; [|done].
    by apply list_elem_of_lookup_2 in Hb.
  - apply (IH i j); [done | lia | done..].
Qed.

(** X9. The batches follow the sort order as a whole: with a batch size
    [B > 0], every timestamp of a batch is no later than every timestamp of
    a later batch in the ascending case, and no earlier in the descending
    case. *)
Theorem create_time_chunks_batches_ordered
    (datetime_list : list datetime) (_reversed : bool) (B : Z)
    (batches : list (list datetime)) :
  0 < B →
  create_time_chunks datetime_list _reversed (Some B) = inr batches →
  ∀ (i j : nat) a b x y,
    (i < j)%nat → batches !! i = Some a → batches !! j = Some b →
    x ∈ a → y ∈ b →
    if _reversed then dt_le y x else dt_le x y.
Proof.
  intros HB Heq i j a b x y Hij Ha Hb Hx Hy.
  unfold create_time_chunks in Heq.
  destruct (chunk_iterable_batches (sorted dt_le datetime_list _reversed) B HB)
    as (batches' & Heq' & Hcat & _).
  rewrite Heq' in Heq. injection Heq as ->.
  destruct _reversed.
  - apply (concat_sorted_across (flip dt_le) batches i j a b x y); try done.
    rewrite Hcat. apply sorted_descending; apply _.
  - apply (concat_sorted_across dt_le batches i j a b x y); try done.
    rewrite Hcat. apply sorted_ascending; apply _.
Qed.

Lemma create_time_chunks_batches_ordered_witness :
  dt_le (mkDatetime 2019 1 1 0 0 0 0) (mkDatetime 2021 1 1 0 0 0 0).
Proof.
  apply (create_time_chunks_batches_ordered
           [mkDatetime 2020 1 1 0 0 0 0; mkDatetime 2019 1 1 0 0 0 0;
            mkDatetime 2021 1 1 0 0 0 0] false 2
           [[mkDatetime 2019 1 1 0 0 0 0; mkDatetime 2020 1 1 0 0 0 0];
            [mkDatetime 2021 1 1 0 0 0 0]]
           ltac:(lia) ltac:(vm_compute; reflexivity)
           0%nat 1%nat _ _ _ _ ltac:(lia) eq_refl eq_refl);
    constructor.
Defined.

Lemma sorted_dt_Permutation (l l' : list datetime) (flag : bool) :
  l ≡ₚ l' → sorted dt_le l flag = sorted dt_le l' flag.
Proof.
  intros Hp. destruct flag.
  - apply (sorted_unique_reversed dt_le).
    + by rewrite sorted_Permutation.
    + apply StronglySorted_Sorted, sorted_descending; apply _.
  - apply (sorted_unique dt_le).
    + by rewrite sorted_Permutation.
    + apply StronglySorted_Sorted, sorted_ascending; apply _.
Qed.

(** X10. The order in which the timestamps are given does not matter: two
    lists with the same timestamps, each as often, give the same batches. *)
Theorem create_time_chunks_Permutation
    (l l' : list datetime) (_reversed : bool) (time_chunk_size : option Z) :
  l ≡ₚ l' →
  create_time_chunks l _reversed time_chunk_size
    = create_time_chunks l' _reversed time_chunk_size.
Proof.
  intros Hp. unfold create_time_chunks.
  by rewrite (sorted_dt_Permutation l l' _reversed Hp).
Qed.

Lemma create_time_chunks_Permutation_witness :
  create_time_chunks [mkDatetime 2020 1 1 0 0 0 0; mkDatetime 2019 1 1 0 0 0 0]
    false (Some 1)
  = create_time_chunks [mkDatetime 2019 1 1 0 0 0 0; mkDatetime 2020 1 1 0 0 0 0]
    false (Some 1).
Proof. apply create_time_chunks_Permutation. apply perm_swap. Defined.

(** X11. Sorting with [_reversed] set gives the ascending order read backwards:
    without a batch size, the single batch of the descending call is the
    reverse of the single batch of the ascending call. *)
Theorem create_time_chunks_reversed (datetime_list : list datetime) :
  ∃ ascending,
    create_time_chunks datetime_list false None = inr [ascending] ∧
    create_time_chunks datetime_list true None = inr [reverse ascending].
Proof.
  exists (sorted dt_le datetime_list false). split; [done|].
  unfold create_time_chunks, ret. do 2 f_equal. symmetry.
  apply (sorted_unique_reversed dt_le).
  - by rewrite reverse_Permutation, sorted_Permutation.
  - apply Sorted_reverse, StronglySorted_Sorted, sorted_ascending; apply _.
Qed.

(** X12. Where an element ends up: with a chunk size [B > 0], the element at
    index [p] of the input is the element at index [p mod B] of chunk
    [p div B]. *)
Theorem chunk_iterable_position {A} (_iterable : list A) (B : Z) (p : nat) (x : A) :
  0 < B →
  _iterable !! p = Some x →
  ∃ chunks chunk,
    _chunk_iterable _iterable B = inr chunks ∧
    chunks !! (p `div` Z.to_nat B)%nat = Some chunk ∧
    chunk !! (p `mod` Z.to_nat B)%nat = Some x.
Proof.
  intros HB Hp. set (b := Z.to_nat B).
  assert (b ≠ 0)%nat as Hb by lia.
  pose proof (lookup_lt_Some _ _ _ Hp) as Hlt.
  destruct (batch_count_bounds (Z.of_nat (length _iterable)) B HB ltac:(lia))
    as (Hc0 & Hup & _).
  set (c := batch_count (Z.of_nat (length _iterable)) B) in *.
  eexists _, (take b (drop ((p `div` b) * b) _iterable)).
  split; [by apply chunk_iterable_eq|]. fold c b. split.
  - rewrite list_lookup_fmap, lookup_seq_lt; [done|].
    apply Nat.Div0.div_lt_upper_bound.
    assert (Z.of_nat (b * Z.to_nat c) = B * c) as Hz
      by (rewrite Nat2Z.inj_mul; subst b; f_equal; lia).
    lia.
  - rewrite lookup_take_lt by (by apply Nat.mod_upper_bound).
    rewrite lookup_drop, <- Hp. f_equal.
    rewrite (Nat.div_mod_eq p b) at 3. lia.
Qed.

Lemma chunk_iterable_position_witness :
  ∃ chunks chunk,
    _chunk_iterable [10; 20; 30; 40; 50] 2 = inr chunks ∧
    chunks !! 1%nat = Some chunk ∧ chunk !! 1%nat = Some 40.
Proof.
  apply (chunk_iterable_position [10; 20; 30; 40; 50] 2 3 40); [lia | reflexivity].
Defined.

(** ** Grouping: the keys of the mapping *)

Lemma group_runs_key_elem {A} (key : A → Z) (l : list A) k :
  k ∈ (group_runs key l).*1 ↔ ∃ x, x ∈ l ∧ key x = k.
Proof.
  pose proof (group_runs_is_run key l) as Hall. rewrite Forall_forall in Hall.
  split.
  - intros ([k' run] & -> & Hkr)%list_elem_of_fmap. simpl.
    destruct (Hall _ Hkr) as [Hne Hk]. simpl in *.
    destruct run as [|x run]; [done|]. exists x. split.
    + rewrite <- (group_runs_concat key l).
      apply list_elem_of_In, in_concat. exists (x :: run).
      split; apply list_elem_of_In; [|left].
      apply list_elem_of_fmap. by exists (k', x :: run).
    + by apply Forall_cons in Hk as [? _].
  - intros (x & Hx & <-).
    rewrite <- (group_runs_concat key l) in Hx.
    apply list_elem_of_In, in_concat in Hx as (run & Hrun & Hx).
    apply list_elem_of_In in Hrun, Hx.
    apply list_elem_of_fmap in Hrun as ([k run'] & -> & Hkr). simpl in Hx.
    destruct (Hall _ Hkr) as [_ Hk]. rewrite Forall_forall in Hk. simpl in Hk.
    rewrite (Hk x Hx). apply list_elem_of_fmap. by exists (k, run').
Qed.

Lemma groupby_keys {A} (key : A → Z) (l : list A) :
  (groupby l key).*1 = (group_runs key l).*1.
Proof.
  unfold groupby. apply list_eq. intros i.
  rewrite !list_lookup_fmap, list_lookup_imap.
  by destruct (group_runs key l !! i).
Qed.

Lemma dict_groupby_dom {A} (key : A → Z) (l : list A) k :
  is_Some (dict (groupby l key) !! k) ↔ ∃ x, x ∈ l ∧ key x = k.
Proof. by rewrite dict_lookup_is_Some, groupby_keys, group_runs_key_elem. Qed.

(** X13. The mappings have a key exactly for each year, or month, that occurs in
    the list, whatever the inclusion list; an empty list gives an empty
    mapping. *)
Theorem grouping_keys (datetime_list : list datetime) (months : list Z) (k : Z) :
  (is_Some (group_datetimes_by_year datetime_list !! k) ↔
     ∃ x, x ∈ datetime_list ∧ year x = k) ∧
  (is_Some (group_datetimes_by_month datetime_list months !! k) ↔
     ∃ x, x ∈ datetime_list ∧ month x = k) ∧
  (datetime_list = [] →
     group_datetimes_by_year datetime_list = ∅ ∧
     group_datetimes_by_month datetime_list months = ∅).
Proof.
  split; [apply dict_groupby_dom|]. split; [apply dict_groupby_dom|].
  by intros ->.
Qed.

(** ** Grouping: lists whose equal keys are adjacent *)

Lemma group_runs_head {A} (key : A → Z) (l : list A) :
  head ((group_runs key l).*1) = key <$> head l.
Proof.
  destruct l as [|x l]; [done|]. rewrite group_runs_cons.
  destruct (group_runs key l) as [|[k g] rest]; [done|].
  destruct (Z.eqb_spec (key x) k) as [Hk|Hk]; simpl; [by rewrite Hk | done].
Qed.

Lemma key_adjacent_tail {A} (key : A → Z) (x : A) (l : list A) :
  key_adjacent key (x :: l) → key_adjacent key l.
Proof.
  intros H i j k a b c Hij Hjk Ha Hb Hc Hk.
  apply (H (S i) (S j) (S k) a b c); [lia | lia | done..].
Qed.

Lemma group_runs_NoDup {A} (key : A → Z) (l : list A) :
  key_adjacent key l → NoDup ((group_runs key l).*1).
Proof.
  induction l as [|x l IH]; intros Hadj; [constructor|].
  specialize (IH (key_adjacent_tail key x l Hadj)).
  pose proof (group_runs_head key l) as Hhead.
  rewrite group_runs_cons.
  destruct (group_runs key l) as [|[k0 g0] rest] eqn:E; [repeat constructor; by intros ?%elem_of_nil|].
  destruct (Z.eqb_spec (key x) k0) as [Hk|Hk]; [done|].
  change (NoDup (key x :: ((k0, g0) :: rest).*1)).
  apply NoDup_cons. split; [|done].
  rewrite <- E. intros (z & Hz & Hkz)%group_runs_key_elem.
  destruct l as [|y l]; [done|]. simpl in Hhead. injection Hhead as Hy.
  apply list_elem_of_lookup in Hz as [k Hz].
  destruct k as [|k]; simpl in Hz.
  - injection Hz as ->. congruence.
  - apply Hk. rewrite Hy. symmetry.
    apply (Hadj 0%nat 1%nat (S (S k)) x y z); [lia | lia | done..].
Qed.

(** With keys that are all different, [dict] replaces nothing. *)
Lemma dict_size_NoDup {V} (pairs : list (Z * V)) :
  NoDup (pairs.*1) → size (dict pairs) = length pairs.
Proof.
  induction pairs as [|[k v] pairs IH] using rev_ind; intros Hnd; [done|].
  rewrite fmap_app in Hnd. apply NoDup_app in Hnd as (Hnd & Hfresh & _).
  rewrite dict_snoc, length_app. simpl.
  rewrite map_size_insert_None.
  - rewrite IH by done. lia.
  - apply eq_None_not_Some. rewrite dict_lookup_is_Some. intros Hk.
    apply (Hfresh k Hk). simpl. left.
Qed.

Lemma dict_groupby_separate {A} (key : A → Z) (l : list A) :
  key_adjacent key l →
  separate_groups key l (dict (groupby l key)) ∧
  size (dict (groupby l key)) = length (group_runs key l).
Proof.
  intros Hnd%group_runs_NoDup. split.
  - intros i k run Hr. exists k. apply dict_groupby_last.
    exists i, run. split; [done|]. split; [done|].
    intros j run' Hij Hj.
    assert (i = j); [|lia].
    apply (NoDup_lookup _ i j k Hnd); rewrite list_lookup_fmap.
    + by rewrite Hr.
    + by rewrite Hj.
  - rewrite dict_size_NoDup by (by rewrite groupby_keys).
    unfold groupby. by rewrite length_imap.
Qed.

(** X14. When the datetimes of each year are adjacent in the list,
    [group_datetimes_by_year] replaces no group: every run of the scan has
    its group in the mapping, which has as many entries as the scan has
    runs.  (Which group objects are kept, not what they yield.) *)
Theorem group_datetimes_by_year_adjacent (datetime_list : list datetime) :
  key_adjacent year datetime_list →
  separate_groups year datetime_list (group_datetimes_by_year datetime_list) ∧
  size (group_datetimes_by_year datetime_list)
    = length (group_runs year datetime_list).
Proof. apply dict_groupby_separate. Qed.

(** X15. Likewise for [group_datetimes_by_month], when the datetimes of each
    month are adjacent, and whatever the inclusion list. *)
Theorem group_datetimes_by_month_adjacent
    (datetime_list : list datetime) (months : list Z) :
  key_adjacent month datetime_list →
  separate_groups month datetime_list
    (group_datetimes_by_month datetime_list months) ∧
  size (group_datetimes_by_month datetime_list months)
    = length (group_runs month datetime_list).
Proof. apply dict_groupby_separate. Qed.

Lemma StronglySorted_lookup_lt {A} (R : relation A) (l : list A) (i j : nat) x y :
  StronglySorted R l → (i < j)%nat → l !! i = Some x → l !! j = Some y → R x y.
Proof.
  intros Hs. revert i j. induction Hs as [|a l Hs IH Hall]; intros i j Hij Hx Hy; [done|].
  destruct i as [|i], j as [|j]; try lia; simpl in Hx, Hy.
  - injection Hx as ->. rewrite Forall_forall in Hall. apply Hall.
    by apply list_elem_of_lookup_2 in Hy.
  - apply (IH i j); [lia | done..].
Qed.

(** A list ordered by a relation along which the key never goes back has
    its equal keys adjacent. *)
Lemma sorted_key_adjacent {A} (R : relation A) (S : relation Z) `{!AntiSymm (=) S}
    (key : A → Z) (l : list A) :
  StronglySorted R l →
  (∀ x y, R x y → S (key x) (key y)) →
  key_adjacent key l.
Proof.
  intros Hs Hmono i j k x y z Hij Hjk Hx Hy Hz Hxz.
  apply (anti_symm S).
  - rewrite Hxz. apply Hmono. by apply (StronglySorted_lookup_lt R l j k).
  - apply Hmono. by apply (StronglySorted_lookup_lt R l i j).
Qed.

Local Instance Z_ge_antisym : AntiSymm (=) (flip Z.le).
Proof. intros x y. unfold flip. lia. Qed.

Lemma dt_le_year x y : dt_le x y → year x ≤ year y.
Proof.
  rewrite dt_le_compare. unfold dt_fields. simpl.
  destruct (Z.compare_spec (year x) (year y)); [lia | lia | done].
Qed.

Lemma group_datetimes_by_year_adjacent_witness :
  ∃ k',
    group_datetimes_by_year
      [mkDatetime 2020 1 1 0 0 0 0; mkDatetime 2021 5 1 0 0 0 0;
       mkDatetime 2021 2 1 0 0 0 0] !! k'
    = Some (Grouper 0 [mkDatetime 2020 1 1 0 0 0 0]).
Proof.
  refine (proj1 (group_datetimes_by_year_adjacent
                   [mkDatetime 2020 1 1 0 0 0 0; mkDatetime 2021 5 1 0 0 0 0;
                    mkDatetime 2021 2 1 0 0 0 0] _) 0%nat 2020 _ eq_refl).
  apply (sorted_key_adjacent (fun x y => year x ≤ year y) Z.le); [|done].
  repeat constructor; simpl; lia.
Defined.

Lemma group_datetimes_by_month_adjacent_witness :
  ∃ k',
    group_datetimes_by_month
      [mkDatetime 2020 7 1 0 0 0 0; mkDatetime 2021 7 1 0 0 0 0;
       mkDatetime 2021 9 1 0 0 0 0] [1; 2; 3] !! k'
    = Some (Grouper 0 [mkDatetime 2020 7 1 0 0 0 0; mkDatetime 2021 7 1 0 0 0 0]).
Proof.
  refine (proj1 (group_datetimes_by_month_adjacent
                   [mkDatetime 2020 7 1 0 0 0 0; mkDatetime 2021 7 1 0 0 0 0;
                    mkDatetime 2021 9 1 0 0 0 0] [1; 2; 3] _) 0%nat 7 _ eq_refl).
  apply (sorted_key_adjacent (fun x y => month x ≤ month y) Z.le); [|done].
  repeat constructor; simpl; lia.
Defined.

(** X16. Grouping by year what [create_time_chunks] has sorted, in either
    direction, replaces no group: the datetimes of a year are adjacent in the
    sorted list, every run of the scan has its group in the mapping, and the
    mapping has as many entries as the scan has runs.  (Which group objects
    are kept, not what they yield.) *)
Theorem group_by_year_of_sorted
    (datetime_list : list datetime) (_reversed : bool)
    (datetimes_sorted : list datetime) :
  create_time_chunks datetime_list _reversed None = inr [datetimes_sorted] →
  key_adjacent year datetimes_sorted ∧
  separate_groups year datetimes_sorted (group_datetimes_by_year datetimes_sorted) ∧
  size (group_datetimes_by_year datetimes_sorted)
    = length (group_runs year datetimes_sorted).
Proof.
  intros [= <-].
  assert (key_adjacent year (sorted dt_le datetime_list _reversed)) as Hadj.
  { destruct _reversed.
    - apply (sorted_key_adjacent (flip dt_le) (flip Z.le));
        [apply sorted_descending; apply _|].
      intros x y. apply dt_le_year.
    - apply (sorted_key_adjacent dt_le Z.le); [apply sorted_ascending; apply _|].
      apply dt_le_year. }
  split; [done|]. by apply dict_groupby_separate.
Qed.

Lemma group_by_year_of_sorted_witness :
  size (group_datetimes_by_year
          [mkDatetime 2021 2 1 0 0 0 0; mkDatetime 2021 1 1 0 0 0 0;
           mkDatetime 2020 1 1 0 0 0 0])
  = length (group_runs year
          [mkDatetime 2021 2 1 0 0 0 0; mkDatetime 2021 1 1 0 0 0 0;
           mkDatetime 2020 1 1 0 0 0 0]).
Proof.
  apply (group_by_year_of_sorted
           [mkDatetime 2021 1 1 0 0 0 0; mkDatetime 2020 1 1 0 0 0 0;
            mkDatetime 2021 2 1 0 0 0 0] true).
  vm_compute. reflexivity.
Defined.

(** ** SlidingWindowGenerator: what the windows hold *)

Lemma generate_baseline_window_lookup {A} (l : list A) (W : Z)
    (windows : list (list A)) (k : nat) w :
  0 ≤ W →
  _generate_baseline l W = Windows [windows] →
  windows !! k = Some w →
  Z.of_nat k < Z.of_nat (length l) - W - 1 ∧ w = take (Z.to_nat W) (drop k l).
Proof.
  intros HW Heq Hw. unfold _generate_baseline in Heq.
  destruct (Z.leb_spec (Z.of_nat (length l)) W); [done|].
  injection Heq as <-. unfold range in Hw.
  rewrite list_lookup_fmap, fmap_Some in Hw. destruct Hw as (i & Hi & ->).
  apply lookup_seqZ in Hi as [-> Hk]. split; [done|].
  rewrite slice_nonneg by lia. do 2 f_equal; lia.
Qed.

(** X17. The element at index [j] of window [k] is the element at index [k + j]
    of the input, and such an index is at most [len - 3]: the last two
    elements of the input are in no window. *)
Theorem generate_baseline_skips_last_two {A} (l : list A) (W : Z)
    (windows : list (list A)) (k j : nat) w x :
  0 ≤ W →
  _generate_baseline l W = Windows [windows] →
  windows !! k = Some w →
  w !! j = Some x →
  l !! (k + j)%nat = Some x ∧ (k + j + 3 ≤ length l)%nat.
Proof.
  intros HW Heq Hw Hx.
  destruct (generate_baseline_window_lookup l W windows k w HW Heq Hw) as [Hk ->].
  apply lookup_take_Some in Hx as [Hx Hj]. rewrite lookup_drop in Hx.
  split; [done | lia].
Qed.

Lemma generate_baseline_skips_last_two_witness :
  [10; 20; 30; 40; 50] !! (1 + 1)%nat = Some 30 ∧ (1 + 1 + 3 ≤ 5)%nat.
Proof.
  apply (generate_baseline_skips_last_two [10; 20; 30; 40; 50] 2
           [[10; 20]; [20; 30]] 1 1 [20; 30] 30);
    [lia | reflexivity | reflexivity | reflexivity].
Defined.

(** X18. The windows slide by one element: a window without its first element
    is the next window without its last. *)
Theorem generate_baseline_slides {A} (l : list A) (W : Z)
    (windows : list (list A)) (k : nat) w w' :
  0 ≤ W →
  _generate_baseline l W = Windows [windows] →
  windows !! k = Some w →
  windows !! S k = Some w' →
  drop 1 w = take (Z.to_nat W - 1) w'.
Proof.
  intros HW Heq Hw Hw'.
  destruct (generate_baseline_window_lookup l W windows k w HW Heq Hw) as [_ ->].
  destruct (generate_baseline_window_lookup l W windows (S k) w' HW Heq Hw')
    as [_ ->].
  apply list_eq. intros i.
  rewrite lookup_drop, !lookup_take, !lookup_drop.
  repeat case_decide; try lia; try done. f_equal. lia.
Qed.

Lemma generate_baseline_slides_witness :
  drop 1 [10; 20] = take (Z.to_nat 2 - 1) [20; 30].
Proof.
  apply (generate_baseline_slides [10; 20; 30; 40; 50] 2 [[10; 20]; [20; 30]] 0);
    [lia | reflexivity | reflexivity | reflexivity].
Defined.

(** ** ChunkCombiner: the indexers *)

Section combiner_indices.
Context {Dataset : Type} `{!XArray Dataset}.

(** X19. The indexers built for a merged dataset list its latitude labels and
    its longitude labels, each exactly as often as the dataset has it: the
    reindexing adds and drops no label on these axes; and there is an
    indexer for latitude, for longitude, for time when the dataset has a
    time entry, and for nothing else. *)
Theorem build_indices_labels (combined_chunks : Dataset) :
  let indices := build_indices combined_chunks in
  (∃ lat lon,
     indices !! "latitude" = Some (Labels lat) ∧
     lat ≡ₚ ds_latitude combined_chunks ∧
     indices !! "longitude" = Some (Labels lon) ∧
     lon ≡ₚ ds_longitude combined_chunks) ∧
  (∀ key : string,
     is_Some (indices !! key) ↔
     key = "latitude" ∨ key = "longitude" ∨
     (key = "time" ∧ is_Some (ds_time combined_chunks))).
Proof.
  intros indices. subst indices. unfold build_indices. split.
  - exists (sorted Qle (ds_latitude combined_chunks) true),
           (sorted Qle (ds_longitude combined_chunks) false).
    split; [destruct (ds_time combined_chunks); by simplify_map_eq|].
    split; [apply (sorted_Permutation Qle _ true)|].
    split; [destruct (ds_time combined_chunks); by simplify_map_eq|].
    apply (sorted_Permutation Qle _ false).
  - intros key. destruct (ds_time combined_chunks) as [values|].
    + rewrite !lookup_insert_is_Some', lookup_singleton_is_Some.
      split.
      * intros [<-|[<-|<-]]; [right; right; by eauto | by right; left | by left].
      * intros [->|[->|[-> _]]]; auto.
    + rewrite !lookup_insert_is_Some', lookup_singleton_is_Some.
      split.
      * intros [<-|<-]; [by right; left | by left].
      * intros [->|[->|[_ [? ?]]]]; [auto | auto | done].
Qed.
End combiner_indices.
